(** * jspp: the lazy-sequence combinators of [src/lib/iterable.ts]

    A shallow embedding of the combinator library and the properties its
    specification states about it.

    Conventions of the embedding.
    - A re-traversable, finite [Iterable<T>] is a [list T]; every
      [for (const x of iter)] is a recursion over that list.
    - A [function*] body whose only loop is a [for ... of] over its source is a
      [generator]: the code before the loop, one loop iteration, the code
      after the loop.  The locals of the body are the generator's state and
      each [yield] is an element of the output.
    - A JavaScript [number] that the library uses as a count, an index or a
      size is an integer of [Z]; fractions, NaN and the infinities are outside
      the embedding.
    - Arrays the library mutates and hands out ([slicesOf],
      [slicesOfOverlapping], [permutations]) live in an explicit store, and a
      yielded window is the reference of its backing array together with what
      the array holds at the instant of the yield.
    - A loop that is not a [for ... of] over a list ([transpose],
      [permutations], pulling a traversal to its end) takes fuel, one unit per
      evaluation of its test, and answers [None] when the fuel runs out; the
      properties show how much fuel makes it end by its own test. *)

From Stdlib Require Import ZArith Lia String Ascii Sorting.Sorted Permutation.
From stdpp Require Import base list strings.

Local Open Scope Z_scope.

(** ** Host values *)

(** The absence-of-value marker [undefined], which the library casts to any
    element type ([undefined as unknown as T]). *)
Class Undefined (T : Type) := undefined : T.

(** The host's relational operators [>] and [<] on a type of values. *)
Class Relational (T : Type) := {
  js_gt : T → T → bool;
  js_lt : T → T → bool
}.

(** Dynamically typed values, as far as [typeof] tells them apart.  Objects,
    functions and symbols are opaque: only their identity is kept. *)
Inductive value : Type :=
  | VUndefined
  | VNull
  | VBoolean (b : bool)
  | VNumber (n : Z)
  | VBigInt (n : Z)
  | VString (s : string)
  | VSymbol (id : nat)
  | VFunction (id : nat)
  | VObject (id : nat).

Inductive type_tag : Type :=
  | TBoolean | TBigInt | TNumber | TString | TUndefined | TObject
  | TSymbol | TFunction.

Definition typeof (v : value) : type_tag :=
  match v with
  | VUndefined => TUndefined
  | VNull => TObject
  | VBoolean _ => TBoolean
  | VNumber _ => TNumber
  | VBigInt _ => TBigInt
  | VString _ => TString
  | VSymbol _ => TSymbol
  | VFunction _ => TFunction
  | VObject _ => TObject
  end.

(** Numeric reading of an operand of [<] or [>] when the operands are not
    both strings; [None] is NaN.  The numeric reading of a string and the
    conversion of an object, function or symbol depend on host parsing and on
    user code: they are read as NaN here, and no comparison the library's
    default comparator performs reaches them. *)
Definition to_numeric (v : value) : option Z :=
  match v with
  | VUndefined => None
  | VNull => Some 0
  | VBoolean b => Some (if b then 1 else 0)
  | VNumber n => Some n
  | VBigInt n => Some n
  | VString _ => None
  | VSymbol _ | VFunction _ | VObject _ => None
  end.

Definition value_lt (a b : value) : bool :=
  match a, b with
  | VString s, VString t => String.ltb s t
  | _, _ =>
      match to_numeric a, to_numeric b with
      | Some x, Some y => x <? y
      | _, _ => false
      end
  end.

#[global] Instance value_undefined : Undefined value := VUndefined.
#[global] Instance value_relational : Relational value :=
  {| js_gt a b := value_lt b a; js_lt a b := value_lt a b |}.

(** ** Generators *)

Section Generator.
Context {A B St : Type}.

Record generator : Type := Generator {
  prologue : list B * St;
  body : St → A → list B * option St;
  epilogue : St → list B
}.

(** The [for ... of] loop of the body over the source [iter], then the code
    after it.  An iteration that answers [None] has executed [return]. *)
Fixpoint for_of (g : generator) (s : St) (iter : list A) : list B :=
  match iter with
  | [] => epilogue g s
  | x :: rest =>
      let '(ys, next) := body g s x in
      ys ++ match next with
            | Some s' => for_of g s' rest
            | None => []
            end
  end.

(** A full traversal of the sequence the generator builds from [iter]. *)
Definition traverse (g : generator) (iter : list A) : list B :=
  (prologue g).1 ++ for_of g (prologue g).2 iter.

(** The yields the consumer has received once the generator has pulled
    exactly the elements [pre] from its source and asks for the next one:
    nothing after [pre] has been looked at, and the code after the loop has
    not run. *)
Fixpoint pulled_of (g : generator) (s : St) (pre : list A) : list B :=
  match pre with
  | [] => []
  | x :: rest =>
      let '(ys, next) := body g s x in
      ys ++ match next with
            | Some s' => pulled_of g s' rest
            | None => []
            end
  end.

Definition pulled (g : generator) (pre : list A) : list B :=
  (prologue g).1 ++ pulled_of g (prologue g).2 pre.

(** The locals of the body once exactly [pre] has been pulled; [None] when
    the body has returned in between. *)
Fixpoint state_of (g : generator) (s : St) (pre : list A) : option St :=
  match pre with
  | [] => Some s
  | x :: rest =>
      match (body g s x).2 with
      | Some s' => state_of g s' rest
      | None => None
      end
  end.

Definition state_after (g : generator) (pre : list A) : option St :=
  state_of g (prologue g).2 pre.
End Generator.

Arguments generator : clear implicits.

(** Modelled from the spec: [genIt] of [src/It] is not embedded
    here; by the spec it "returns a Sequence Wrapper whose traversal, each time
    requested, invokes [recipe()] anew and iterates its suspend points in
    order".  One traversal of the wrapper built from the body [g] closed over
    the source [iter] is therefore one run of [g] over [iter]. *)
Definition genIt {A B St} (g : generator A B St) (iter : list A) : list B :=
  traverse g iter.

(** ** Reductions and positional access *)

Definition toArray {T} (iter : list T) : list T := iter.

Definition mapBy_recipe {T U} (iter : list T) (fn : T → Z → list T → U)
  : generator T U Z :=
  {| prologue := ([], 0);
     body idx v := ([fn v idx iter], Some (idx + 1));
     epilogue _ := [] |}.

Definition mapBy {T U} (iter : list T) (fn : T → Z → list T → U) : list U :=
  genIt (mapBy_recipe iter fn) iter.

Definition filterBy_recipe {T} (iter : list T) (fn : T → Z → list T → bool)
  : generator T T Z :=
  {| prologue := ([], 0);
     body idx v := (if fn v idx iter then [v] else [], Some (idx + 1));
     epilogue _ := [] |}.

Definition filterBy {T} (iter : list T) (fn : T → Z → list T → bool) : list T :=
  genIt (filterBy_recipe iter fn) iter.

Fixpoint fold_loop {T U} (subject : list T) (fn : U → T → Z → list T → U)
    (acc : U) (i : Z) (iter : list T) : U :=
  match iter with
  | [] => acc
  | v :: rest => fold_loop subject fn (fn acc v i subject) (i + 1) rest
  end.

Definition fold {T U} (iter : list T) (initialValue : U)
    (fn : U → T → Z → list T → U) : U :=
  fold_loop iter fn initialValue 0 iter.

(** [count]: the index [i] advances only when [fn] is given and called. *)
Fixpoint count_loop {T} (subject : list T)
    (fn : option (T → Z → list T → bool)) (c i : Z) (iter : list T) : Z :=
  match iter with
  | [] => c
  | v :: rest =>
      match fn with
      | None => count_loop subject fn (c + 1) i rest
      | Some f =>
          if f v i subject then count_loop subject fn (c + 1) (i + 1) rest
          else count_loop subject fn c (i + 1) rest
      end
  end.

Definition count {T} (iter : list T) (fn : option (T → Z → list T → bool)) : Z :=
  count_loop iter fn 0 0 iter.

(** [if (i-- > 0) continue; yield x;] *)
Definition drop_recipe {T} (num : Z) : generator T T Z :=
  {| prologue := ([], num);
     body i x := if 0 <? i then ([], Some (i - 1)) else ([x], Some (i - 1));
     epilogue _ := [] |}.

Definition drop {T} (iter : list T) (num : Z) : list T :=
  genIt (drop_recipe num) iter.

(** [if (i-- <= 0) return; yield x;] *)
Definition take_recipe {T} (num : Z) : generator T T Z :=
  {| prologue := ([], num);
     body i x := if i <=? 0 then ([], None) else ([x], Some (i - 1));
     epilogue _ := [] |}.

Definition take {T} (iter : list T) (num : Z) : list T :=
  genIt (take_recipe num) iter.

Section Positional.
Context {T : Type} `{!Undefined T}.

Definition first (iter : list T) : T :=
  match iter with
  | x :: _ => x
  | [] => undefined
  end.

Definition nth (iter : list T) (index : Z) : T :=
  if 0 <=? index then first (drop iter index) else undefined.

Fixpoint last_loop (result : T) (iter : list T) : T :=
  match iter with
  | [] => result
  | x :: rest => last_loop x rest
  end.

Definition last (iter : list T) : T := last_loop undefined iter.

(** Array reads and writes as the host performs them: a read out of range
    gives [undefined]; a write at or past the end extends the array, the
    skipped slots reading as [undefined]. *)
Definition array_get (a : list T) (i : nat) : T := default undefined (a !! i).

Definition array_set (a : list T) (i : nat) (x : T) : list T :=
  if (i <? length a)%nat then <[i:=x]> a
  else a ++ replicate (i - length a) undefined ++ [x].

(** The locals of the body are the write cursor [i] and [buffer]. *)
Definition takeExceptLast_recipe (num : Z) : generator T T (nat * list T) :=
  {| prologue := ([], (0%nat, []));
     body '(i, buffer) x :=
       let ys := if num <=? Z.of_nat (length buffer)
                 then [array_get buffer i] else [] in
       let buffer := array_set buffer i x in
       let i := S i in
       let i := if num <=? Z.of_nat i then 0%nat else i in
       (ys, Some (i, buffer));
     epilogue _ := [] |}.

(** What the cursor and the buffer hold once the elements [pre] have been
    pulled: the cursor is [length pre] modulo [n], and the slot of every one
    of the last [n] elements is its position modulo [n]. *)
Definition buffer_inv (n : nat) (pre : list T) (s : nat * list T) : Prop :=
  let k := length pre in
  (∃ q, k = q * n + s.1 ∧ s.1 < n)%nat ∧
  length s.2 = (k `min` n)%nat ∧
  ∀ m q j, (m = q * n + j → j < n → m < k → k ≤ m + n →
            s.2 !! j = pre !! m)%nat.

Definition takeExceptLast (iter : list T) (num : Z) : list T :=
  if num <=? 0 then iter else genIt (takeExceptLast_recipe num) iter.

(** [start] is the parameter after its default [0] has been applied; [end_]
    is [None] for an omitted [end]. *)
Definition sliced (iter : list T) (start : Z) (end_ : option Z) : list T :=
  let iter :=
    if 0 <? start then drop iter start
    else if start <? 0 then drop iter (count iter None + start)
    else iter in
  match end_ with
  | None => iter
  | Some e => if e <? 0 then takeExceptLast iter (- e) else take iter (e - start)
  end.

Context `{!Relational T}.

Fixpoint max_loop (r : T) (isFirst : bool) (iter : list T) : T :=
  match iter with
  | [] => r
  | x :: rest =>
      if isFirst || js_gt x r then max_loop x false rest
      else max_loop r isFirst rest
  end.

Definition max (iter : list T) : T := max_loop undefined true iter.
End Positional.

(** ** Transposition *)

Section Transpose.
Context {T : Type} `{!Undefined T}.

(** The inner generator of column [x]: [for (const arr of iter) yield nth(arr, x)]. *)
Definition column_recipe (x : Z) : generator (list T) T unit :=
  {| prologue := ([], tt);
     body _ arr := ([nth arr x], Some tt);
     epilogue _ := [] |}.

(** [for (let x = 0; x < width; x++) yield genIt(...)]: one unit of fuel per
    evaluation of the loop test; [None] when the fuel is used up before the
    test fails. *)
Fixpoint transpose_loop (fuel : nat) (iter : list (list T)) (width : value)
    (x : Z) : option (list (list T)) :=
  match fuel with
  | O => None
  | S fuel =>
      if js_lt (VNumber x) width
      then cols ← transpose_loop fuel iter width (x + 1);
           Some (genIt (column_recipe x) iter :: cols)
      else Some []
  end.

(** The rows are typed as sequences, so the guard
    [if (!arr[Symbol.iterator]) throw new TypeError(...)] never fires. *)
Definition transpose_width (iter : list (list T)) : value :=
  max (mapBy iter (λ arr _ _, VNumber (count arr None))).

Definition transpose_fuel (fuel : nat) (iter : list (list T))
  : option (list (list T)) :=
  transpose_loop fuel iter (transpose_width iter) 0.
End Transpose.

(** ** Sorting *)

Definition sortType (v : value) : Z :=
  match typeof v with
  | TBoolean => 0
  | TBigInt | TNumber => 1
  | TString => 2
  | TUndefined => 5
  | TObject => match v with VNull => 4 | _ => 3 end
  | TSymbol | TFunction => 3
  end.

Definition defaultComparator (a b : value) : Z :=
  let ta := sortType a in
  let tb := sortType b in
  if negb (ta =? tb) then ta - tb
  else if 3 <=? ta then 0
  else if js_gt a b then 1 else if js_lt a b then -1 else 0.

(** [a] may stand before [b] in an array sorted by the default comparator. *)
Definition comes_before (a b : value) : Prop := defaultComparator a b ≤ 0.

(** The host's [Array.prototype.sort]: [undefined] elements go last without
    the comparison function being called, the others are ordered by the sign
    of [comparefn], and elements that compare equal keep their order. *)
Definition sort_compare (comparefn : value → value → Z) (x y : value) : Z :=
  match x, y with
  | VUndefined, VUndefined => 0
  | VUndefined, _ => 1
  | _, VUndefined => -1
  | _, _ => comparefn x y
  end.

Fixpoint sort_insert (comparefn : value → value → Z) (x : value)
    (sorted_tail : list value) : list value :=
  match sorted_tail with
  | [] => [x]
  | y :: rest =>
      if sort_compare comparefn x y <=? 0 then x :: y :: rest
      else y :: sort_insert comparefn x rest
  end.

Definition array_sort (comparefn : value → value → Z) (arr : list value)
  : list value :=
  foldr (sort_insert comparefn) [] arr.

Definition sorted_recipe : generator value value unit :=
  {| prologue := ([], tt);
     body _ x := ([x], Some tt);
     epilogue _ := [] |}.

Definition sorted_by {U} (iter : list value) (by_ : value → U)
    (comparator : U → U → Z) : list value :=
  let arr := toArray iter in
  let arr := array_sort (λ a b, comparator (by_ a) (by_ b)) arr in
  genIt sorted_recipe arr.

(** [sorted(iter)] with both defaults: [by] the identity, [comparator] the
    default comparator. *)
Definition sorted (iter : list value) : list value :=
  sorted_by iter (λ v, v) defaultComparator.

(** ** Arrays in the store, windows and permutations *)

Section Store.
Context {T : Type} `{!Undefined T}.

(** The arrays allocated so far; a reference is a position in the store.  An
    array literal and a spread [[...a]] allocate. *)
Definition alloc (σ : list (list T)) (a : list T) : nat * list (list T) :=
  (length σ, σ ++ [a]).

Definition deref (σ : list (list T)) (r : nat) : list T := default [] (σ !! r).

(** [a.push(x)], [a.shift()] and [[a[j], a[i]] = [a[i], a[j]]] on the array
    at reference [r]. *)
Definition array_push (σ : list (list T)) (r : nat) (x : T) : list (list T) :=
  <[r := deref σ r ++ [x]]> σ.

Definition array_shift (σ : list (list T)) (r : nat) : list (list T) :=
  <[r := tail (deref σ r)]> σ.

Definition swap (a : list T) (j i : nat) : list T :=
  let ai := array_get a i in
  let aj := array_get a j in
  array_set (array_set a j ai) i aj.

Definition array_swap (σ : list (list T)) (r : nat) (j i : nat)
  : list (list T) :=
  <[r := swap (deref σ r) j i]> σ.

(** A yielded [new It(a)]: the wrapper refers to the array [a] itself;
    [seen] is what that array holds at the instant of the yield. *)
Record window : Type := Window { backing : nat; seen : list T }.

Definition new_It (σ : list (list T)) (r : nat) : window :=
  {| backing := r; seen := deref σ r |}.

(** The locals of the body are the store and the reference [temp]. *)
Definition slicesOf_recipe (size : Z) (σ0 : list (list T))
  : generator T window (list (list T) * nat) :=
  {| prologue := let '(temp, σ) := alloc σ0 [] in ([], (σ, temp));
     body '(σ, temp) x :=
       let σ := if Z.of_nat (length (deref σ temp)) <? size
                then array_push σ temp x else σ in
       if Z.of_nat (length (deref σ temp)) =? size
       then let '(temp', σ') := alloc σ [] in ([new_It σ temp], Some (σ', temp'))
       else ([], Some (σ, temp));
     epilogue '(σ, temp) :=
       if (0 <? Z.of_nat (length (deref σ temp))) || (size =? 0)
       then [new_It σ temp] else [] |}.

Definition slicesOf (iter : list T) (size : Z) (σ0 : list (list T))
  : list window :=
  genIt (slicesOf_recipe size σ0) iter.

Definition slicesOfOverlapping_recipe (size : Z) (σ0 : list (list T))
  : generator T window (list (list T) * nat) :=
  {| prologue :=
       let '(temp, σ) := alloc σ0 [] in
       if size =? 0
       then let '(copy, σ') := alloc σ (deref σ temp) in
            ([new_It σ' copy], (σ', temp))
       else ([], (σ, temp));
     body '(σ, temp) x :=
       let σ := array_push σ temp x in
       let σ := if size <? Z.of_nat (length (deref σ temp))
                then array_shift σ temp else σ in
       if Z.of_nat (length (deref σ temp)) =? size
       then let '(copy, σ') := alloc σ (deref σ temp) in
            ([new_It σ' copy], Some (σ', temp))
       else ([], Some (σ, temp));
     epilogue _ := [] |}.

Definition slicesOfOverlapping (iter : list T) (size : Z) (σ0 : list (list T))
  : list window :=
  genIt (slicesOfOverlapping_recipe size σ0) iter.

(** The [while (i < arr.length)] loop of [permutations]; [arr] is the
    reference of the array under permutation, [c] the counters (a private
    array, never yielded) and [i] the scan position.  [c] is as long as the
    array, so every read [c[i]] is in range.  One unit of fuel per evaluation
    of the loop test; [None] when the fuel is used up before the test fails.
    The result is the windows yielded and the store at the end. *)
Fixpoint permutations_loop (fuel : nat) (arr : nat) (σ : list (list T))
    (c : list nat) (i : nat) : option (list window * list (list T)) :=
  match fuel with
  | O => None
  | S fuel =>
      if (i <? length (deref σ arr))%nat then
        if (c !!! i <? i)%nat then
          let j := if Nat.even i then 0%nat else c !!! i in
          let σ := array_swap σ arr j i in
          let w := new_It σ arr in
          '(ws, σ') ← permutations_loop fuel arr σ (<[i := S (c !!! i)]> c) 0;
          Some (w :: ws, σ')
        else permutations_loop fuel arr σ (<[i := 0%nat]> c) (S i)
      else Some ([], σ)
  end.

Definition permutations_fuel (fuel : nat) (iter : list T) (σ0 : list (list T))
  : option (list window * list (list T)) :=
  let '(arr, σ) := alloc σ0 (toArray iter) in
  let c := replicate (length (deref σ arr)) 0%nat in
  let w := new_It σ arr in
  '(ws, σ') ← permutations_loop fuel arr σ c 0;
  Some (w :: ws, σ').

(** The windows yielded so far stay as they were seen: none of them is
    backed by the array the body still writes to, and the store holds for
    each what it held at the yield. *)
Definition stable (σ : list (list T)) (temp : nat) (ws : list window) : Prop :=
  (temp < length σ)%nat ∧
  Forall (λ w, backing w ≠ temp ∧ σ !! backing w = Some (seen w)) ws.
End Store.

Arguments window : clear implicits.

(** ** Sequence wrappers and the lazy builder *)

Section LazyBuilder.
Context {B : Type}.

(** Modelled from the spec: the wrapper type [It] and the builder [genIt] of
    [src/It] are not embedded from code.  By the spec a sequence is either
    re-traversable or single-use; [wrap(source)] exposes a source unchanged,
    and [buildLazy(recipe)] gives a wrapper "whose traversal, each time
    requested, invokes [recipe()] anew and iterates its suspend points in
    order".

    The world holds the single-use sources, each with what it has still to
    deliver.  A traversal process has its own locals and runs from one
    suspend point to the next; a step may pull from the single-use sources of
    the world. *)
Record process : Type := Process {
  locals : Type;
  start : locals;
  resume : locals → list (list B) → option (B * locals) * list (list B)
}.

Inductive wrapper : Type :=
  | wrap_array (source : list B)
  | wrap_cursor (source : nat)
  | buildLazy (recipe : unit → process).

(** The traversal a wrapper hands out when asked for one. *)
Definition traversal (w : wrapper) : process :=
  match w with
  | wrap_array source =>
      {| locals := list B;
         start := source;
         resume l world :=
           (match l with [] => None | x :: l' => Some (x, l') end, world) |}
  | wrap_cursor source =>
      {| locals := unit;
         start := tt;
         resume _ world :=
           match world !! source with
           | Some (x :: rest) => (Some (x, tt), <[source:=rest]> world)
           | _ => (None, world)
           end |}
  | buildLazy recipe => recipe tt
  end.

(** Pulling a traversal to its end; one unit of fuel per pull, [None] when the
    fuel is used up first. *)
Fixpoint drain (fuel : nat) (p : process) (s : locals p)
    (world : list (list B)) : option (list B) * list (list B) :=
  match fuel with
  | O => (None, world)
  | S fuel =>
      match resume p s world with
      | (None, world) => (Some [], world)
      | (Some (x, s'), world) =>
          let '(xs, world) := drain fuel p s' world in
          (cons x <$> xs, world)
      end
  end.

Definition toArray_of (fuel : nat) (w : wrapper) (world : list (list B))
  : option (list B) * list (list B) :=
  drain fuel (traversal w) (start (traversal w)) world.

(** A deterministic, side-effect-free recipe over an unchanged source: no
    step of its process reads or changes the world. *)
Definition self_contained (p : process) : Prop :=
  ∀ s world, resume p s world = ((resume p s []).1, world).

(** The process of a generator body [g] closed over the list [iter]: the
    yields of the current iteration not yet delivered, and the locals with
    the rest of the source ([None] once the body is finished). *)
Context {A St : Type}.

Fixpoint advance (g : generator A B St) (s : St) (rest : list A)
  : option (B * (list B * option (St * list A))) :=
  match rest with
  | [] =>
      match epilogue g s with
      | [] => None
      | y :: ys => Some (y, (ys, None))
      end
  | x :: rest =>
      let '(ys, next) := body g s x in
      match ys with
      | y :: ys => Some (y, (ys, (λ s', (s', rest)) <$> next))
      | [] =>
          match next with
          | Some s' => advance g s' rest
          | None => None
          end
      end
  end.

Definition generator_process (g : generator A B St) (iter : list A)
  : process :=
  {| locals := list B * option (St * list A);
     start := ((prologue g).1, Some ((prologue g).2, iter));
     resume st world :=
       (match st with
        | (y :: ys, r) => Some (y, (ys, r))
        | ([], Some (s, rest)) => advance g s rest
        | ([], None) => None
        end, world) |}.

(** All a suspended generator has still to yield. *)
Definition remaining (g : generator A B St)
    (st : list B * option (St * list A)) : list B :=
  st.1 ++ match st.2 with
          | Some (s, rest) => for_of g s rest
          | None => []
          end.
End LazyBuilder.

Arguments process : clear implicits.
Arguments wrapper : clear implicits.

(** ** The swap procedure of [permutations], level by level *)

Section SwapProcedure.
Context {T : Type} `{!Undefined T}.

(** The loop of [permutations] on the contents of the array alone: the
    snapshots taken at the yields and the contents at the end. *)
Fixpoint swap_loop (fuel : nat) (a : list T) (c : list nat) (i : nat)
  : option (list (list T) * list T) :=
  match fuel with
  | O => None
  | S fuel =>
      if (i <? length a)%nat then
        if (c !!! i <? i)%nat then
          let j := if Nat.even i then 0%nat else c !!! i in
          let a := swap a j i in
          '(out, a') ← swap_loop fuel a (<[i := S (c !!! i)]> c) 0;
          Some (a :: out, a')
        else swap_loop fuel a (<[i := 0%nat]> c) (S i)
      else Some ([], a)
  end.

(** What the loop does between two visits of position [i] with all counters
    below [i] at zero, written as a recursion.  Level [S i] runs level [i],
    then [i] rounds, round [m] being the swap of position [i] with position
    [0] ([i] even) or [m] ([i] odd), the yield, and level [i] again. *)
Fixpoint swap_rounds (lower : list T → list (list T) * list T)
    (i m r : nat) (a : list T) : list (list T) * list T :=
  match r with
  | O => ([], a)
  | S r =>
      let a1 := swap a (if Nat.even i then 0%nat else m) i in
      let '(out1, a2) := lower a1 in
      let '(out2, a3) := swap_rounds lower i (S m) r a2 in
      (a1 :: out1 ++ out2, a3)
  end.

Fixpoint swap_level (k : nat) (a : list T) : list (list T) * list T :=
  match k with
  | O => ([], a)
  | S i =>
      let '(out0, a0) := swap_level i a in
      let '(out, a') := swap_rounds (swap_level i) i 0 i a0 in
      (out0 ++ out, a')
  end.

(** Evaluations of the loop test that level [k] takes. *)
Fixpoint swap_steps (k : nat) : nat :=
  match k with
  | O => 0
  | S i => swap_steps i + i * S (swap_steps i) + 1
  end%nat.

Definition prepend (out : list (list T))
    (r : option (list (list T) * list T)) : option (list (list T) * list T) :=
  '(o, a) ← r; Some (out ++ o, a).

(** [b] holds at every position [p] what [a] holds at position [g p]. *)
Definition arranged (g : nat → nat) (a b : list T) : Prop :=
  ∀ p, b !! p = a !! g p.
End SwapProcedure.

(** Where the contents of a position come from.  [exchange j i] is one swap;
    [net_effect k] is level [k] as a whole: the exchange of the two ends for
    odd [k], a cycle through all [k] positions for even [k]. *)
Definition exchange (j i p : nat) : nat :=
  if decide (p = i) then j else if decide (p = j) then i else p.

Definition cycle (k p : nat) : nat :=
  (if decide (k ≤ p) then p
   else if decide (p = k - 1) then 0
   else if decide (p = k - 2) then k - 1
   else if decide (p = 0) then k - 3
   else if decide (p = 1) then k - 2
   else p - 1)%nat.

Definition net_effect (k p : nat) : nat :=
  if Nat.even k then cycle k p else exchange 0 (k - 1) p.

Definition pick (i m : nat) : nat := if Nat.even i then 0%nat else m.

(** The array when round [m] of level [S i] has made its swap, read against
    the array at the start of the level. *)
Fixpoint round_start (i m p : nat) : nat :=
  match m with
  | O => p
  | S m' => round_start i m' (net_effect i (exchange (pick i m') i p))
  end.

(** [round_start] in closed form for odd [i] from 3 on. *)
Definition round_start_odd (i m p : nat) : nat :=
  (if decide (i < p) then p
   else if decide (p = i) then
     (if decide (m = 0) then i else if decide (m = 1) then i - 1
      else if decide (m = i) then 0 else m - 1)
   else if decide (p = 0) then (if Nat.even m then 0 else i)
   else if decide (m = i) then (if decide (p = 1) then i - 1 else p - 1)
   else if decide (p = i - 1) then
     (if decide (m = 0) then i - 1 else if Nat.even m then i else 0)
   else if decide (p = 1) then (if decide (m ≤ 1) then 1 else i - 1)
   else if decide (p < m) then p - 1 else p)%nat.

(** For even [i], one round moves every position one step along a cycle
    through all of [0..i]; [orbit i r] is the position [r] steps from [i],
    and it is its own inverse. *)
Definition turn (i p : nat) : nat := cycle i (exchange 0 i p).

Definition orbit (i r : nat) : nat :=
  (if decide (i < r) then r
   else if decide (r = 0) then i
   else if decide (r = i) then 0
   else if decide (r = i - 1) then i - 1
   else if decide (r = i - 2) then i - 2
   else i - 2 - r)%nat.

(** ** What the levels of the swap procedure achieve *)

Section SwapSpecs.
Context {T : Type} `{!Undefined T}.
Local Open Scope nat_scope.

(** One run of level [i] inside the loop, as the induction over the levels
    provides it. *)
Definition loop_runs_level (i : nat) : Prop :=
  ∀ a c f,
    i ≤ length a → (∀ j, j < i → c !! j = Some 0) →
    swap_loop (swap_steps i + f) a c 0 =
    prepend (swap_level i a).1 (swap_loop f (swap_level i a).2 c i) ∧
    length (swap_level i a).2 = length a.

(** What level [k] does to an array [a] of at least [k] elements. *)
Definition level_spec (k : nat) : Prop :=
  ∀ a, k ≤ length a →
    let out := (swap_level k a).1 in
    let a' := (swap_level k a).2 in
    length a' = length a ∧ a' ≡ₚ a ∧ arranged (net_effect k) a a' ∧
    (∀ x, x ∈ out →
       length x = length a ∧ x ≡ₚ a ∧ ∀ p, k ≤ p → x !! p = a !! p) ∧
    length out + 1 = fact k ∧
    (NoDup a → NoDup (a :: out)).

(** What [r] rounds from round [m] on do within level [S i], read against the
    array [a] the level started from; [b] is the array the rounds start
    from. *)
Definition rounds_spec (i : nat) (a : list T) (m r : nat) (b : list T)
  : Prop :=
  let out := (swap_rounds (swap_level i) i m r b).1 in
  let b' := (swap_rounds (swap_level i) i m r b).2 in
  length b' = length a ∧ b' ≡ₚ a ∧
  arranged (λ p, round_start i i (net_effect i p)) a b' ∧
  (∀ x, x ∈ out →
     length x = length a ∧ x ≡ₚ a ∧ (∀ p, S i ≤ p → x !! p = a !! p) ∧
     ∃ m', m < m' ∧ m' ≤ i ∧ x !! i = a !! round_start i m' i) ∧
  length out = r * fact i ∧
  (NoDup a → NoDup out).

(** A run on the contents of the array at [arr], put back into the store:
    every snapshot is a window on [arr], and [arr] holds the final contents. *)
Definition in_store (arr : nat) (σ : list (list T))
    (r : option (list (list T) * list T))
  : option (list (window T) * list (list T)) :=
  match r with
  | Some (out, a') => Some (Window arr <$> out, <[arr:=a']> σ)
  | None => None
  end.
End SwapSpecs.

(** ** Aggregations, reversal and joining *)





Section Histogram.
Context {K : Type} `{!EqDecision K}.

(** The host's [Map], as far as [histogram] uses it: the entries in insertion
    order; [set] on a key that is present replaces its value in place, on a
    new key it appends. *)
Fixpoint map_get (m : list (K * Z)) (k : K) : option Z :=
  match m with
  | [] => None
  | (k', v) :: rest => if decide (k = k') then Some v else map_get rest k
  end.

Fixpoint map_set (m : list (K * Z)) (k : K) (v : Z) : list (K * Z) :=
  match m with
  | [] => [(k, v)]
  | (k', v') :: rest =>
      if decide (k = k') then (k, v) :: rest else (k', v') :: map_set rest k v
  end.

(** [hist.set(x, (hist.get(x) ?? 0) + 1)] for every [x] of the source. *)
Fixpoint histogram_loop (hist : list (K * Z)) (iter : list K) : list (K * Z) :=
  match iter with
  | [] => hist
  | x :: rest =>
      histogram_loop (map_set hist x (default 0 (map_get hist x) + 1)) rest
  end.

Definition histogram (iter : list K) : list (K * Z) := histogram_loop [] iter.

(** The distinct elements of a list in the order of their first
    occurrences. *)
Fixpoint first_seen (seen_so_far iter : list K) : list K :=
  match iter with
  | [] => []
  | x :: rest =>
      if decide (x ∈ seen_so_far) then first_seen seen_so_far rest
      else x :: first_seen (x :: seen_so_far) rest
  end.

(** How often [x] occurs in a list. *)
Fixpoint occurrences (x : K) (iter : list K) : Z :=
  match iter with
  | [] => 0
  | y :: rest => (if decide (x = y) then 1 else 0) + occurrences x rest
  end.
End Histogram.

Section Reversed.
Context {T : Type} `{!Undefined T}.

(** [for (let i = arr.length - 1; i >= 0; i--) yield arr[i]]: one unit of
    fuel per evaluation of the loop test. *)
Fixpoint reversed_loop (fuel : nat) (arr : list T) (i : Z) : option (list T) :=
  match fuel with
  | O => None
  | S fuel =>
      if 0 <=? i
      then ys ← reversed_loop fuel arr (i - 1);
           Some (array_get arr (Z.to_nat i) :: ys)
      else Some []
  end.

Definition reversed_fuel (fuel : nat) (iter : list T) : option (list T) :=
  let arr := toArray iter in
  reversed_loop fuel arr (Z.of_nat (length arr) - 1).
End Reversed.

(** The locals of [joinStr] are [str] and [isFirst]. *)
Fixpoint joinStr_loop (separator str : string) (isFirst : bool)
    (iter : list string) : string :=
  match iter with
  | [] => str
  | s :: rest =>
      let str := if isFirst then str else str +:+ separator in
      joinStr_loop separator (str +:+ s) false rest
  end.

Definition joinStr (iter : list string) (separator : string) : string :=
  joinStr_loop separator "" true iter.

(** ** Reading the windows of a traversal *)

(** Consecutive snapshots differ by one swap of two different positions. *)
Fixpoint one_swap_apart {T} `{!Undefined T} (a : list T) (out : list (list T))
  : Prop :=
  match out with
  | [] => True
  | b :: rest =>
      (∃ j i, (j < i < length a)%nat ∧ b = swap a j i) ∧ one_swap_apart b rest
  end.

(** ** Ordering by a key *)

(** [a] may stand before [b] when the host sorts by the default comparator on
    the keys [by_ a] and [by_ b]. *)
Definition key_before (by_ : value → value) (a b : value) : Prop :=
  sort_compare (λ a b, defaultComparator (by_ a) (by_ b)) a b ≤ 0.

(** * Properties *)

(** ** The examples of the specification *)

Example take_drop_example :
  take (drop [VNumber 1; VNumber 2; VNumber 3; VNumber 4; VNumber 5] 1) 2 =
  [VNumber 2; VNumber 3].
Proof. reflexivity. Qed.

Example sliced_example :
  sliced [VNumber 1; VNumber 2; VNumber 3; VNumber 4; VNumber 5] 1 (Some (-1)) =
  [VNumber 2; VNumber 3; VNumber 4].
Proof. reflexivity. Qed.

Example slicesOf_example :
  seen <$> slicesOf [VNumber 1; VNumber 2; VNumber 3; VNumber 4; VNumber 5] 2 [] =
  [[VNumber 1; VNumber 2]; [VNumber 3; VNumber 4]; [VNumber 5]].
Proof. reflexivity. Qed.

Example slicesOfOverlapping_example :
  seen <$> slicesOfOverlapping [VNumber 1; VNumber 2; VNumber 3; VNumber 4] 2 [] =
  [[VNumber 1; VNumber 2]; [VNumber 2; VNumber 3]; [VNumber 3; VNumber 4]].
Proof. reflexivity. Qed.

Example transpose_example :
  transpose_fuel 4
    [[VNumber 1; VNumber 2; VNumber 3]; [VNumber 4; VNumber 5; VNumber 6]] =
  Some [[VNumber 1; VNumber 4]; [VNumber 2; VNumber 5]; [VNumber 3; VNumber 6]].
Proof. reflexivity. Qed.

Example permutations_example :
  match permutations_fuel 20 [VNumber 1; VNumber 2; VNumber 3] [] with
  | Some (ws, _) => seen <$> ws
  | None => []
  end =
  [[VNumber 1; VNumber 2; VNumber 3]; [VNumber 2; VNumber 1; VNumber 3];
   [VNumber 3; VNumber 1; VNumber 2]; [VNumber 1; VNumber 3; VNumber 2];
   [VNumber 2; VNumber 3; VNumber 1]; [VNumber 3; VNumber 2; VNumber 1]].
Proof. reflexivity. Qed.

(** ** Runs of a generator, split at a point of the source *)

Section GeneratorFacts.
Context {A B St : Type} (g : generator A B St).

Lemma state_of_app s pre ext :
  state_of g s (pre ++ ext) = state_of g s pre ≫= λ s', state_of g s' ext.
Proof.
  revert s. induction pre as [|x pre IH]; intros s; simpl; [done|].
  destruct (body g s x) as [ys [s'|]]; simpl; [apply IH | done].
Qed.

Lemma pulled_of_app s pre ext :
  pulled_of g s (pre ++ ext) =
  pulled_of g s pre ++
    match state_of g s pre with Some s' => pulled_of g s' ext | None => [] end.
Proof.
  revert s. induction pre as [|x pre IH]; intros s; simpl; [done|].
  destruct (body g s x) as [ys [s'|]]; simpl.
  - by rewrite IH, (assoc_L (++)).
  - by rewrite !app_nil_r.
Qed.

Lemma for_of_pulled s iter :
  for_of g s iter =
  pulled_of g s iter ++
    match state_of g s iter with Some s' => epilogue g s' | None => [] end.
Proof.
  revert s. induction iter as [|x iter IH]; intros s; simpl; [done|].
  destruct (body g s x) as [ys [s'|]]; simpl.
  - by rewrite IH, (assoc_L (++)).
  - by rewrite !app_nil_r.
Qed.

Lemma state_of_snoc s pre x :
  state_of g s (pre ++ [x]) = state_of g s pre ≫= λ s', (body g s' x).2.
Proof.
  rewrite state_of_app. destruct (state_of g s pre) as [s'|]; simpl; [|done].
  by destruct (body g s' x) as [ys [s''|]].
Qed.

Lemma pulled_of_snoc s pre x :
  pulled_of g s (pre ++ [x]) =
  pulled_of g s pre ++
    match state_of g s pre with Some s' => (body g s' x).1 | None => [] end.
Proof.
  rewrite pulled_of_app. destruct (state_of g s pre) as [s'|]; simpl; [|done].
  destruct (body g s' x) as [ys [s''|]]; simpl; by rewrite app_nil_r.
Qed.

Lemma state_after_snoc pre x :
  state_after g (pre ++ [x]) = state_after g pre ≫= λ s', (body g s' x).2.
Proof. apply state_of_snoc. Qed.

Lemma pulled_snoc pre x :
  pulled g (pre ++ [x]) =
  pulled g pre ++
    match state_after g pre with Some s' => (body g s' x).1 | None => [] end.
Proof.
  unfold pulled, state_after. by rewrite pulled_of_snoc, (assoc_L (++)).
Qed.

Lemma traverse_pulled iter :
  traverse g iter =
  pulled g iter ++
    match state_after g iter with Some s' => epilogue g s' | None => [] end.
Proof.
  unfold traverse, pulled, state_after.
  by rewrite for_of_pulled, (assoc_L (++)).
Qed.

Lemma pulled_app pre ext :
  pulled g (pre ++ ext) =
  pulled g pre ++
    match state_after g pre with Some s' => pulled_of g s' ext | None => [] end.
Proof.
  unfold pulled, state_after. by rewrite pulled_of_app, (assoc_L (++)).
Qed.
End GeneratorFacts.

(** ** Restartable traversals *)

Section LazyBuilderFacts.
Context {B : Type}.
Implicit Types (p : process B) (world : list (list B)).

Lemma drain_self_contained p fuel (s : locals p) world :
  self_contained p →
  drain fuel p s world = ((drain fuel p s []).1, world).
Proof.
  intros Hp. revert s. induction fuel as [|fuel IH]; intros s; [done|].
  simpl. rewrite (Hp s world), (Hp s []). simpl.
  destruct (resume p s []).1 as [[x s']|]; [|done].
  rewrite (IH s'). by destruct (drain fuel p s' []) as [xs w].
Qed.

Context {A St : Type}.
Implicit Types (g : generator A B St).

Lemma generator_process_self_contained g iter :
  self_contained (generator_process g iter).
Proof. by intros [[|y ys] [[s rest]|]] world. Qed.

Lemma advance_remaining g s rest :
  match advance g s rest with
  | Some (y, st) => for_of g s rest = y :: remaining g st
  | None => for_of g s rest = []
  end.
Proof.
  revert s. induction rest as [|x rest IH]; intros s; simpl.
  - by destruct (epilogue g s) as [|y ys]; [|unfold remaining; rewrite app_nil_r].
  - destruct (body g s x) as [[|y ys] [s'|]]; simpl; [apply IH|done..].
Qed.

Lemma resume_remaining g iter (st : locals (generator_process g iter)) world :
  match (resume (generator_process g iter) st world).1 with
  | Some (y, st') => remaining g st = y :: remaining g st'
  | None => remaining g st = []
  end.
Proof.
  destruct st as [[|y ys] [[s rest]|]]; simpl; [|done..].
  pose proof (advance_remaining g s rest) as H.
  by destruct (advance g s rest) as [[y st']|].
Qed.

Lemma drain_generator g iter fuel (st : locals (generator_process g iter)) world :
  (length (remaining g st) < fuel)%nat →
  drain fuel (generator_process g iter) st world = (Some (remaining g st), world).
Proof.
  revert st. induction fuel as [|fuel IH]; intros st Hfuel; [lia|].
  pose proof (resume_remaining g iter st world) as H.
  cbn [drain]. 
  assert ((resume (generator_process g iter) st world).2 = world) as Hw by done.
  destruct (resume (generator_process g iter) st world) as [[[y st']|] w];
    simpl in H, Hw; subst w; rewrite H in *; [|done].
  rewrite IH by (simpl in Hfuel; lia). done.
Qed.
End LazyBuilderFacts.

(** C3: a wrapper built by the lazy builder from a deterministic,
    side-effect-free recipe gives the same array at every full traversal: the
    second [toArray] starts the recipe anew, finds the world as the first
    found it, and returns what the first returned.  The bodies of this
    library over an unchanged list are such recipes, and their traversals,
    given enough fuel, return the yields of the body in order. *)
Theorem lazy_wrapper_restartable {B} (recipe : unit → process B)
    (fuel : nat) (world : list (list B)) :
  self_contained (recipe tt) →
  let first_run := toArray_of fuel (buildLazy recipe) world in
  let second_run := toArray_of fuel (buildLazy recipe) first_run.2 in
  second_run.1 = first_run.1 ∧ first_run.2 = world ∧ second_run.2 = world.
Proof.
  intros Hp. unfold toArray_of. simpl.
  rewrite (drain_self_contained _ _ _ world Hp). simpl.
  by rewrite (drain_self_contained _ _ _ world Hp).
Qed.

Lemma lazy_wrapper_restartable_witness :
  let recipe := λ _ : unit,
    generator_process (drop_recipe 1) [VNumber 1; VNumber 2; VNumber 3] in
  (toArray_of 10 (buildLazy recipe)
     (toArray_of 10 (buildLazy recipe) [[VNumber 9]]).2).1 =
    Some [VNumber 2; VNumber 3] ∧
  (toArray_of 10 (buildLazy recipe) [[VNumber 9]]).2 = [[VNumber 9]].
Proof.
  intros recipe.
  destruct (lazy_wrapper_restartable recipe 10 [[VNumber 9]])
    as (Hsame & Hworld & _).
  - apply generator_process_self_contained.
  - split; [rewrite Hsame; reflexivity|exact Hworld].
Defined.

(** The traversals of a wrapper built from a body of this library over a
    list: enough fuel gives the yields of the body, whatever the world. *)
Lemma generator_wrapper_traversal {A B St} (g : generator A B St)
    (iter : list A) (fuel : nat) (world : list (list B)) :
  (length (genIt g iter) < fuel)%nat →
  toArray_of fuel (buildLazy (λ _, generator_process g iter)) world =
  (Some (genIt g iter), world).
Proof.
  intros Hfuel. unfold toArray_of. simpl traversal.
  by rewrite drain_generator.
Qed.

(** A wrapper around a single-use source is not restartable: the second
    traversal finds the source used up. *)
Lemma single_use_not_restartable :
  let first_run := toArray_of 10 (wrap_cursor 0) [[VNumber 1; VNumber 2]] in
  first_run.1 = Some [VNumber 1; VNumber 2] ∧
  (toArray_of 10 (wrap_cursor 0) first_run.2).1 = Some [].
Proof. done. Qed.

(** ** [count], [drop] and [take] on a finite source *)

Lemma count_loop_all {T} (subject iter : list T) c i :
  count_loop subject None c i iter = c + Z.of_nat (length iter).
Proof.
  revert c. induction iter as [|x iter IH]; intros c; simpl; [lia|].
  rewrite IH. lia.
Qed.

Lemma count_length {T} (iter : list T) :
  count iter None = Z.of_nat (length iter).
Proof. unfold count. by rewrite count_loop_all. Qed.

Lemma drop_for_of {T} (iter : list T) num i :
  for_of (drop_recipe num) i iter = skipn (Z.to_nat i) iter.
Proof.
  revert i. induction iter as [|x iter IH]; intros i; simpl.
  - by rewrite skipn_nil.
  - destruct (Z.ltb_spec 0 i) as [Hi|Hi]; simpl; rewrite IH.
    + by replace (Z.to_nat i) with (S (Z.to_nat (i - 1))) by lia.
    + replace (Z.to_nat (i - 1)) with O by lia.
      by replace (Z.to_nat i) with O by lia.
Qed.

Lemma drop_skipn {T} (iter : list T) num :
  drop iter num = skipn (Z.to_nat num) iter.
Proof. unfold drop, genIt, traverse. simpl. apply drop_for_of. Qed.

Lemma take_for_of {T} (iter : list T) num i :
  for_of (take_recipe num) i iter = firstn (Z.to_nat i) iter.
Proof.
  revert i. induction iter as [|x iter IH]; intros i; simpl.
  - by rewrite firstn_nil.
  - destruct (Z.leb_spec i 0) as [Hi|Hi]; simpl.
    + by replace (Z.to_nat i) with O by lia.
    + rewrite IH. by replace (Z.to_nat i) with (S (Z.to_nat (i - 1))) by lia.
Qed.

Lemma take_firstn {T} (iter : list T) num :
  take iter num = firstn (Z.to_nat num) iter.
Proof. unfold take, genIt, traverse. simpl. apply take_for_of. Qed.

Section PositionalFacts.
Context {T : Type} `{!Undefined T}.

Lemma nth_in_range (iter : list T) (i : nat) x :
  iter !! i = Some x → nth iter (Z.of_nat i) = x.
Proof.
  intros Hx. unfold nth.
  destruct (Z.leb_spec 0 (Z.of_nat i)); [|lia].
  rewrite drop_skipn, Nat2Z.id.
  by rewrite (drop_S _ _ _ Hx).
Qed.

Lemma nth_out_of_range (iter : list T) index :
  index < 0 ∨ Z.of_nat (length iter) ≤ index → nth iter index = undefined.
Proof.
  intros Hi. unfold nth.
  destruct (Z.leb_spec 0 index); [|done].
  rewrite drop_skipn, skipn_all2 by lia. done.
Qed.

Lemma nth_array_get (iter : list T) (i : nat) :
  nth iter (Z.of_nat i) = array_get iter i.
Proof.
  unfold array_get. destruct (iter !! i) as [x|] eqn:Hx; simpl.
  - by apply nth_in_range.
  - apply nth_out_of_range. apply lookup_ge_None in Hx. lia.
Qed.
End PositionalFacts.

(** C9: the empty-input scalar queries do not fail, they answer [undefined]:
    [first] and [last] on an empty sequence, [max] on an empty sequence, and
    [nth] with a negative index or an index at or past the end. *)
Theorem empty_queries_answer_undefined {T} `{!Undefined T, !Relational T} :
  first ([] : list T) = undefined ∧
  last ([] : list T) = undefined ∧
  max ([] : list T) = undefined ∧
  ∀ (iter : list T) (index : Z),
    index < 0 ∨ Z.of_nat (length iter) ≤ index → nth iter index = undefined.
Proof. repeat split. apply nth_out_of_range. Qed.

Lemma empty_queries_answer_undefined_witness :
  nth [VNumber 7; VNumber 8] 2 = VUndefined ∧
  nth [VNumber 7; VNumber 8] (-1) = VUndefined.
Proof.
  destruct (@empty_queries_answer_undefined value _ _) as (_ & _ & _ & H).
  split; apply H; simpl; lia.
Defined.

(** C6: with a negative [start] (and no [end]), [sliced] counts the whole
    source, adds [start], and hands the sum to [drop], which skips nothing when
    the sum is negative and that many leading elements otherwise; on
    [1,2,3,4,5] and [-2] the result is [4,5]. *)
Theorem sliced_negative_start :
  (∀ {T} `{!Undefined T} (iter : list T) (start : Z),
     start < 0 →
     sliced iter start None = drop iter (count iter None + start) ∧
     count iter None = Z.of_nat (length iter) ∧
     sliced iter start None =
       skipn (Z.to_nat (Z.max 0 (Z.of_nat (length iter) + start))) iter) ∧
  sliced [VNumber 1; VNumber 2; VNumber 3; VNumber 4; VNumber 5] (-2) None =
    [VNumber 4; VNumber 5].
Proof.
  split; [|done].
  intros T ? iter start Hstart.
  assert (sliced iter start None = drop iter (count iter None + start)) as Hs.
  { unfold sliced.
    destruct (Z.ltb_spec 0 start); [lia|].
    destruct (Z.ltb_spec start 0); [done|lia]. }
  split_and!; [done|apply count_length|].
  rewrite Hs, drop_skipn, count_length. f_equal. lia.
Qed.

Lemma sliced_negative_start_witness :
  sliced [VNumber 1; VNumber 2; VNumber 3] (-5) None =
    skipn (Z.to_nat (Z.max 0 (Z.of_nat 3 + -5)))
      [VNumber 1; VNumber 2; VNumber 3].
Proof.
  destruct sliced_negative_start as [H _].
  apply (H value _ [VNumber 1; VNumber 2; VNumber 3] (-5)). lia.
Defined.

(** ** The circular buffer of [takeExceptLast] *)

Lemma slot_unique (n q q' i j : nat) :
  (q * n + i = q' * n + j → i < n → j < n → i = j ∧ q = q')%nat.
Proof.
  intros H Hi Hj.
  destruct (Nat.lt_trichotomy q q') as [Hq|[->|Hq]]; [|lia|].
  - assert (S q * n ≤ q' * n)%nat by (apply Nat.mul_le_mono_r; lia).
    simpl in *. lia.
  - assert (S q' * n ≤ q * n)%nat by (apply Nat.mul_le_mono_r; lia).
    simpl in *. lia.
Qed.

Lemma slot_distinct (n q q' i j : nat) :
  (q * n + i < q' * n + j → q' * n + j < q * n + i + n →
   i < n → j < n → i ≠ j)%nat.
Proof.
  intros H1 H2 Hi Hj ->.
  destruct (Nat.lt_trichotomy q q') as [Hq|[->|Hq]]; [|lia|].
  - assert (S q * n ≤ q' * n)%nat by (apply Nat.mul_le_mono_r; lia).
    simpl in *. lia.
  - assert (S q' * n ≤ q * n)%nat by (apply Nat.mul_le_mono_r; lia).
    simpl in *. lia.
Qed.

Section TakeExceptLast.
Context {T : Type} `{!Undefined T}.
Variable n : nat.
Hypothesis n_pos : (0 < n)%nat.

Lemma buffer_step pre s x :
  buffer_inv n pre s →
  ∃ s', body (takeExceptLast_recipe (Z.of_nat n)) s x =
          (if (n <=? length pre)%nat
           then [default undefined (pre !! (length pre - n)%nat)] else [],
           Some s') ∧
        buffer_inv n (pre ++ [x]) s'.
Proof.
  destruct s as [i buffer]. intros ([q [Hk Hi]] & Hlen & Hslots).
  simpl in *. eexists. split.
  - f_equal.
    destruct (Z.leb_spec (Z.of_nat n) (Z.of_nat (length buffer))) as [Hn|Hn];
      destruct (Nat.leb_spec n (length pre)) as [Hn'|Hn']; try lia; [|done].
    unfold array_get. f_equal. f_equal.
    destruct q as [|q]; [lia|].
    apply (Hslots (length pre - n)%nat q i); lia.
  - split_and!; simpl.
    + destruct (Z.leb_spec (Z.of_nat n) (Z.of_nat (S i))).
      * exists (S q). rewrite length_app. simpl. lia.
      * exists q. rewrite length_app. simpl. lia.
    + unfold array_set. rewrite length_app. simpl.
      destruct (Nat.ltb_spec i (length buffer)).
      * rewrite length_insert. destruct q; simpl in *; lia.
      * rewrite !length_app, length_replicate. simpl. lia.
    + intros m q' j Hm Hj Hmk Hkm. rewrite length_app in *. simpl in *.
      unfold array_set.
      destruct (decide (m = length pre)) as [->|Hne].
      * destruct (slot_unique n q' q j i) as [-> _]; [lia|done..|].
        rewrite lookup_app_r, Nat.sub_diag by lia. simpl.
        destruct (Nat.ltb_spec i (length buffer)).
        -- by rewrite list_lookup_insert_eq.
        -- assert (i = length buffer) as -> by lia.
           rewrite Nat.sub_diag. simpl.
           by rewrite lookup_app_r, Nat.sub_diag by lia.
      * rewrite lookup_app_l by lia.
        assert (j ≠ i) by (apply (slot_distinct n q' q); lia).
        destruct (Nat.ltb_spec i (length buffer)).
        -- rewrite list_lookup_insert_ne by done.
           apply (Hslots m q' j); lia.
        -- assert (i = length buffer) as -> by lia.
           rewrite Nat.sub_diag. simpl.
           rewrite lookup_app_l by lia.
           apply (Hslots m q' j); lia.
Qed.

Lemma takeExceptLast_run pre :
  ∃ s, state_after (takeExceptLast_recipe (Z.of_nat n)) pre = Some s ∧
       buffer_inv n pre s ∧
       pulled (takeExceptLast_recipe (Z.of_nat n)) pre =
         firstn (length pre - n) pre.
Proof.
  induction pre as [|x pre (s & Hs & Hinv & Hout)] using rev_ind.
  - exists (0%nat, []). split_and!; [done| |done].
    split_and!; simpl; [exists 0%nat; lia|lia|intros; lia].
  - destruct (buffer_step pre s x Hinv) as (s' & Hbody & Hinv').
    exists s'. split_and!; [|done|].
    + rewrite state_after_snoc, Hs. cbn [mbind option_bind]. by rewrite Hbody.
    + rewrite pulled_snoc, Hs, Hout, Hbody, length_app. simpl.
      destruct (Nat.leb_spec n (length pre)) as [Hn|Hn].
      * destruct (lookup_lt_is_Some_2 pre (length pre - n)%nat) as [y Hy];
          [lia|].
        rewrite Hy. simpl.
        replace (length pre + 1 - n)%nat with (S (length pre - n)) by lia.
        rewrite firstn_app.
        replace (S (length pre - n) - length pre)%nat with 0%nat by lia.
        simpl. rewrite app_nil_r.
        by rewrite (take_S_r _ _ _ Hy).
      * replace (length pre + 1 - n)%nat with 0%nat by lia.
        by replace (length pre - n)%nat with 0%nat by lia.
Qed.
End TakeExceptLast.

(** C7: for [num > 0], [takeExceptLast] yields the source without its last
    [num] elements, and it does so with a delay of exactly [num]: once [k]
    elements have been pulled from the source (finite or not), the first
    [k - num] of them have been yielded, and nothing else.  For [num <= 0] the
    result is the source itself. *)
Theorem takeExceptLast_delay {T} `{!Undefined T} (iter : list T) (num : Z) :
  (0 < num →
   takeExceptLast iter num = firstn (length iter - Z.to_nat num) iter ∧
   ∀ pre : list T,
     pulled (takeExceptLast_recipe num) pre =
       firstn (length pre - Z.to_nat num) pre) ∧
  (num ≤ 0 → takeExceptLast iter num = iter).
Proof.
  split.
  - intros Hnum.
    assert (∀ pre : list T,
      pulled (takeExceptLast_recipe num) pre =
        firstn (length pre - Z.to_nat num) pre) as Hpulled.
    { intros pre.
      destruct (takeExceptLast_run (Z.to_nat num) ltac:(lia) pre)
        as (s & _ & _ & Hout).
      by rewrite Z2Nat.id in Hout by lia. }
    split; [|done].
    unfold takeExceptLast. destruct (Z.leb_spec num 0); [lia|].
    unfold genIt. rewrite traverse_pulled, Hpulled.
    destruct (state_after _ _); simpl; by rewrite app_nil_r.
  - intros Hnum. unfold takeExceptLast. by destruct (Z.leb_spec num 0); [|lia].
Qed.

Lemma takeExceptLast_delay_witness :
  takeExceptLast [VNumber 1; VNumber 2; VNumber 3; VNumber 4; VNumber 5] 2 =
    [VNumber 1; VNumber 2; VNumber 3] ∧
  takeExceptLast [VNumber 1; VNumber 2] 0 = [VNumber 1; VNumber 2].
Proof.
  split.
  - apply (takeExceptLast_delay
             [VNumber 1; VNumber 2; VNumber 3; VNumber 4; VNumber 5] 2). lia.
  - apply (takeExceptLast_delay [VNumber 1; VNumber 2] 0). lia.
Defined.

(** ** Transposition *)

Lemma mapBy_for_of {T U} (subject iter : list T) (f : T → U) idx :
  for_of (mapBy_recipe subject (λ v _ _, f v)) idx iter = f <$> iter.
Proof.
  revert idx. induction iter as [|x iter IH]; intros idx; simpl; [done|].
  by rewrite IH.
Qed.

Lemma mapBy_fmap {T U} (iter : list T) (f : T → U) :
  mapBy iter (λ v _ _, f v) = f <$> iter.
Proof. apply mapBy_for_of. Qed.

Lemma max_loop_numbers (m : nat) (ns : list nat) :
  max_loop (VNumber (Z.of_nat m)) false ((λ n, VNumber (Z.of_nat n)) <$> ns) =
  VNumber (Z.of_nat (Nat.max m (max_list ns))).
Proof.
  revert m. induction ns as [|n ns IH]; intros m; simpl.
  - by rewrite Nat.max_0_r.
  - destruct (Z.ltb_spec (Z.of_nat m) (Z.of_nat n)); rewrite IH; do 2 f_equal; lia.
Qed.

Lemma max_numbers (ns : list nat) :
  max ((λ n, VNumber (Z.of_nat n)) <$> ns) =
  match ns with [] => VUndefined | _ => VNumber (Z.of_nat (max_list ns)) end.
Proof. destruct ns as [|n ns]; [done|]. apply max_loop_numbers. Qed.

Section TransposeFacts.
Context {T : Type} `{!Undefined T}.

Lemma transpose_width_rows (iter : list (list T)) :
  transpose_width iter =
  match iter with
  | [] => VUndefined
  | _ => VNumber (Z.of_nat (max_list (length <$> iter)))
  end.
Proof.
  unfold transpose_width.
  rewrite (mapBy_fmap iter (λ arr, VNumber (count arr None))).
  erewrite (list_fmap_ext _ (λ arr : list T, VNumber (Z.of_nat (length arr))))
    by (intros; by rewrite count_length).
  assert ((λ arr : list T, VNumber (Z.of_nat (length arr))) <$> iter =
          (λ n, VNumber (Z.of_nat n)) <$> (length <$> iter)) as ->
    by (by rewrite <- list_fmap_compose).
  rewrite max_numbers. by destruct iter.
Qed.

Lemma column_fmap (iter : list (list T)) (x : Z) :
  genIt (column_recipe x) iter = (λ row, nth row x) <$> iter.
Proof.
  unfold genIt, traverse. simpl.
  induction iter as [|row iter IH]; simpl; [done|]. by rewrite IH.
Qed.

Lemma transpose_loop_counted (iter : list (list T)) (w : nat) fuel (x : nat) :
  (x ≤ w → w - x < fuel →
   transpose_loop fuel iter (VNumber (Z.of_nat w)) (Z.of_nat x) =
   Some ((λ x : nat, (λ row, nth row (Z.of_nat x)) <$> iter) <$> seq x (w - x)))%nat.
Proof.
  revert x. induction fuel as [|fuel IH]; intros x Hx Hfuel; [lia|].
  simpl. destruct (Z.ltb_spec (Z.of_nat x) (Z.of_nat w)) as [Hlt|Hge].
  - replace (Z.of_nat x + 1) with (Z.of_nat (S x)) by lia.
    rewrite IH by lia. simpl.
    replace (w - x)%nat with (S (w - S x)) by lia. simpl.
    by rewrite column_fmap.
  - by replace (w - x)%nat with 0%nat by lia.
Qed.
End TransposeFacts.

(** C4: for a finite sequence of finite rows, [transpose] emits one row per
    column index [x] from [0] to [width - 1], [width] being the greatest row
    length; row [x] consists of [nth(row, x)] for every row of the input, in
    order, and [nth(row, x)] is the element at [x] when the row has one and
    [undefined] otherwise.  The loop over the columns ends by its own test
    whenever it is given more than [width] evaluations of it. *)
Theorem transpose_columns {T} `{!Undefined T} (iter : list (list T)) :
  let width := max_list (length <$> iter) in
  (∀ fuel : nat, (width < fuel)%nat →
     transpose_fuel fuel iter =
       Some ((λ x : nat, (λ row, nth row (Z.of_nat x)) <$> iter) <$> seq 0 width)) ∧
  (∀ (row : list T) (x : nat),
     nth row (Z.of_nat x) = default undefined (row !! x)).
Proof.
  intros width. split; [|apply nth_array_get].
  intros fuel Hfuel. unfold transpose_fuel.
  rewrite transpose_width_rows. destruct iter as [|row iter].
  - destruct fuel; [lia|]. done.
  - pose proof (transpose_loop_counted (row :: iter) width fuel 0) as H.
    rewrite Nat.sub_0_r in H. apply H; lia.
Qed.

Lemma transpose_columns_witness :
  transpose_fuel 4
    [[VNumber 1; VNumber 2; VNumber 3]; [VNumber 4]; [VNumber 5; VNumber 6]] =
  Some [[VNumber 1; VNumber 4; VNumber 5];
        [VNumber 2; VUndefined; VNumber 6];
        [VNumber 3; VUndefined; VUndefined]].
Proof.
  apply (transpose_columns
    [[VNumber 1; VNumber 2; VNumber 3]; [VNumber 4]; [VNumber 5; VNumber 6]]).
  simpl. lia.
Defined.

(** ** The default order of [sorted] *)

Lemma string_ltb_leb (s t : string) : String.ltb t s = negb (String.leb s t).
Proof.
  unfold String.ltb, String.leb. rewrite (String.compare_antisym s t).
  by destruct (String.compare t s).
Qed.

Lemma string_not_ltb_trans (s t u : string) :
  String.ltb t s = false → String.ltb u t = false → String.ltb u s = false.
Proof.
  rewrite !string_ltb_leb, !negb_false_iff. intros H1 H2.
  apply Is_true_true. apply Is_true_true in H1, H2.
  exact (PreOrder_Transitive (R:=String.le) s t u H1 H2).
Qed.

Lemma string_ltb_asym (s t : string) :
  String.ltb s t = true → String.ltb t s = false.
Proof.
  unfold String.ltb. rewrite (String.compare_antisym s t).
  by destruct (String.compare t s).
Qed.

Ltac split_ltb :=
  repeat match goal with
    | |- context [Z.ltb ?x ?y] => destruct (Z.ltb_spec x y)
    | |- context [String.ltb ?x ?y] => destruct (String.ltb x y) eqn:?
    end.

Lemma comes_before_total a b : comes_before a b ∨ comes_before b a.
Proof.
  unfold comes_before.
  destruct a as [| |[]| | | | | |], b as [| |[]| | | | | |]; cbn;
    try (left; lia); try (right; lia);
    split_ltb; try (left; lia); try (right; lia).
  all: match goal with
       | H1 : String.ltb ?s ?t = true, H2 : String.ltb ?t ?s = true |- _ =>
           apply string_ltb_asym in H1; congruence
       end.
Qed.

Lemma comes_before_trans a b c :
  comes_before a b → comes_before b c → comes_before a c.
Proof.
  unfold comes_before.
  destruct a as [| |[]| | | | | |], b as [| |[]| | | | | |],
    c as [| |[]| | | | | |]; cbn; try lia;
    split_ltb; try lia.
  all: match goal with
       | H1 : String.ltb ?t ?s = false, H2 : String.ltb ?u ?t = false,
         H3 : String.ltb ?u ?s = true |- _ =>
           rewrite (string_not_ltb_trans s t u H1 H2) in H3; discriminate
       end.
Qed.

Lemma sort_compare_default a b :
  sort_compare defaultComparator a b ≤ 0 ↔ comes_before a b.
Proof. unfold comes_before. destruct a, b; cbn; lia. Qed.

Lemma sort_insert_perm cmp x l : sort_insert cmp x l ≡ₚ x :: l.
Proof.
  induction l as [|y l IH]; simpl; [done|].
  destruct (_ <=? 0); [done|]. rewrite IH. apply Permutation_swap.
Qed.

Lemma array_sort_perm cmp l : array_sort cmp l ≡ₚ l.
Proof.
  induction l as [|x l IH]; simpl; [done|].
  by rewrite sort_insert_perm, IH.
Qed.

Lemma sort_insert_sorted x l :
  StronglySorted comes_before l →
  StronglySorted comes_before (sort_insert defaultComparator x l).
Proof.
  induction 1 as [|y l Hl IH Hy]; simpl.
  - repeat constructor.
  - destruct (Z.leb_spec (sort_compare defaultComparator x y) 0) as [Hxy|Hxy].
    + apply sort_compare_default in Hxy.
      constructor; [by constructor|].
      constructor; [done|].
      eapply Forall_impl; [exact Hy|]. intros z Hz.
      by apply (comes_before_trans x y z).
    + constructor; [done|].
      assert (comes_before y x) as Hyx.
      { destruct (comes_before_total x y) as [H|H]; [|done].
        apply sort_compare_default in H. lia. }
      rewrite sort_insert_perm. by constructor.
Qed.

Lemma array_sort_sorted l :
  StronglySorted comes_before (array_sort defaultComparator l).
Proof.
  induction l as [|x l IH]; simpl; [constructor|].
  by apply sort_insert_sorted.
Qed.

Lemma sorted_array_sort iter : sorted iter = array_sort defaultComparator iter.
Proof.
  unfold sorted, sorted_by, genIt, traverse, toArray. simpl.
  induction (array_sort _ iter) as [|x l IH]; simpl; [done|]. by rewrite IH.
Qed.

Lemma comes_before_rank a b : comes_before a b → sortType a ≤ sortType b.
Proof. unfold comes_before. destruct a, b; cbn; lia. Qed.

(** C8: the default comparator ranks boolean (0) before number and bigint (1)
    before string (2) before objects, functions and symbols (3) before [null]
    (4) before [undefined] (5); values of different ranks compare by rank,
    booleans, numbers and strings of one rank compare by [>] and [<], and
    values of one rank from 3 on compare equal.  [sorted] under this
    comparator permutes its input into an arrangement in which no element
    compares greater than a later one, so ranks never decrease; on
    [true, "b", 3, null, undefined, "a", false] it yields
    [false, true, 3, "a", "b", null, undefined]. *)
Theorem sorted_default_order :
  ((∀ b, sortType (VBoolean b) = 0) ∧
   (∀ n, sortType (VNumber n) = 1 ∧ sortType (VBigInt n) = 1) ∧
   (∀ s, sortType (VString s) = 2) ∧
   (∀ id, sortType (VObject id) = 3 ∧ sortType (VFunction id) = 3 ∧
          sortType (VSymbol id) = 3) ∧
   sortType VNull = 4 ∧ sortType VUndefined = 5) ∧
  (∀ a b, sortType a ≠ sortType b →
     defaultComparator a b = sortType a - sortType b) ∧
  (∀ a b, sortType a = sortType b → sortType a < 3 →
     defaultComparator a b =
       if js_gt a b then 1 else if js_lt a b then -1 else 0) ∧
  (∀ a b, sortType a = sortType b → 3 ≤ sortType a →
     defaultComparator a b = 0) ∧
  (∀ iter : list value,
     sorted iter ≡ₚ iter ∧
     StronglySorted (λ a b, defaultComparator a b ≤ 0) (sorted iter) ∧
     StronglySorted (λ a b, sortType a ≤ sortType b) (sorted iter)) ∧
  sorted [VBoolean true; VString "b"; VNumber 3; VNull; VUndefined;
          VString "a"; VBoolean false] =
    [VBoolean false; VBoolean true; VNumber 3; VString "a"; VString "b";
     VNull; VUndefined].
Proof.
  split_and!; try done.
  - intros a b Hne. unfold defaultComparator.
    destruct (Z.eqb_spec (sortType a) (sortType b)); [done|]. done.
  - intros a b Heq Hlt. unfold defaultComparator.
    destruct (Z.eqb_spec (sortType a) (sortType b)); [|done]. simpl.
    by destruct (Z.leb_spec 3 (sortType a)); [lia|].
  - intros a b Heq Hge. unfold defaultComparator.
    destruct (Z.eqb_spec (sortType a) (sortType b)); [|done]. simpl.
    by destruct (Z.leb_spec 3 (sortType a)); [|lia].
  - intros iter. rewrite sorted_array_sort.
    pose proof (array_sort_sorted iter) as Hs.
    split_and!; [apply array_sort_perm|done|].
    induction Hs as [|x l Hl IH Hx]; constructor; [done|].
    eapply Forall_impl; [exact Hx|]. apply comes_before_rank.
Qed.

Lemma sorted_default_order_witness :
  defaultComparator (VString "a") (VBoolean true) = 2 - 0 ∧
  defaultComparator (VNumber 2) (VBigInt 5) = -1 ∧
  defaultComparator (VObject 0) (VFunction 1) = 0.
Proof.
  destruct sorted_default_order as (_ & Hrank & Hsame & Hother & _).
  split_and!.
  - apply (Hrank (VString "a") (VBoolean true)). done.
  - apply (Hsame (VNumber 2) (VBigInt 5)); done.
  - apply (Hother (VObject 0) (VFunction 1)); done.
Defined.

(** ** Windows and the store *)

Section StoreFacts.
Context {T : Type}.
Implicit Types (σ : list (list T)) (ws : list (window T)).

Lemma lookup_deref σ r : (r < length σ)%nat → σ !! r = Some (deref σ r).
Proof.
  intros Hr. unfold deref.
  by destruct (lookup_lt_is_Some_2 σ r Hr) as [a ->].
Qed.

Lemma deref_lookup σ r a : σ !! r = Some a → deref σ r = a.
Proof. unfold deref. by intros ->. Qed.

Lemma deref_insert σ r a : (r < length σ)%nat → deref (<[r:=a]> σ) r = a.
Proof. intros Hr. unfold deref. by rewrite list_lookup_insert_eq. Qed.

Lemma deref_alloc σ a : deref (σ ++ [a]) (length σ) = a.
Proof. unfold deref. by rewrite lookup_app_r, Nat.sub_diag. Qed.

Lemma stable_write σ temp ws a :
  stable σ temp ws → stable (<[temp:=a]> σ) temp ws.
Proof.
  intros [Ht Hws]. split; [by rewrite length_insert|].
  eapply Forall_impl; [exact Hws|]. intros w [Hne Hw].
  by rewrite list_lookup_insert_ne.
Qed.

Lemma stable_alloc σ temp ws a : stable σ temp ws → stable (σ ++ [a]) temp ws.
Proof.
  intros [Ht Hws]. split; [rewrite length_app; simpl; lia|].
  eapply Forall_impl; [exact Hws|]. intros w [Hne Hw]. split; [done|].
  rewrite lookup_app_l; [done|]. by eapply lookup_lt_Some.
Qed.

(** Yielding the array being filled and moving on to a fresh one. *)
Lemma stable_hand_over σ temp ws a :
  stable σ temp ws → stable (σ ++ [a]) (length σ) (ws ++ [new_It σ temp]).
Proof.
  intros [Ht Hws]. split; [rewrite length_app; simpl; lia|].
  apply Forall_app. split.
  - eapply Forall_impl; [exact Hws|]. intros w [Hne Hw].
    pose proof (lookup_lt_Some _ _ _ Hw).
    split; [lia|]. by rewrite lookup_app_l.
  - constructor; [|done]. simpl. split; [lia|].
    rewrite lookup_app_l by done. by apply lookup_deref.
Qed.

(** Yielding a fresh copy and keeping the array being filled. *)
Lemma stable_copy σ temp ws a :
  stable σ temp ws → stable (σ ++ [a]) temp (ws ++ [new_It (σ ++ [a]) (length σ)]).
Proof.
  intros Hst. pose proof (stable_alloc σ temp ws a Hst) as [Ht Hws].
  destruct Hst as [Ht' _].
  split; [done|]. apply Forall_app. split; [done|].
  constructor; [|done]. simpl. split; [lia|].
  apply lookup_deref. rewrite length_app. simpl. lia.
Qed.

Lemma slicesOf_step size σ0 σ temp ws x :
  stable σ temp ws →
  ∃ σ' temp' ys,
    body (slicesOf_recipe size σ0) (σ, temp) x = (ys, Some (σ', temp')) ∧
    stable σ' temp' (ws ++ ys).
Proof.
  intros Hst. simpl.
  set (σ1 := if Z.of_nat (length (deref σ temp)) <? size
             then array_push σ temp x else σ).
  assert (stable σ1 temp ws) as Hst1.
  { unfold σ1. destruct (_ <? size); [by apply stable_write|done]. }
  destruct (Z.of_nat (length (deref σ1 temp)) =? size).
  - eexists _, _, _. split; [done|]. by apply stable_hand_over.
  - eexists _, _, _. split; [done|]. by rewrite app_nil_r.
Qed.

Lemma slicesOf_run size σ0 pre :
  ∃ σ temp,
    state_after (slicesOf_recipe size σ0) pre = Some (σ, temp) ∧
    stable σ temp (pulled (slicesOf_recipe size σ0) pre).
Proof.
  induction pre as [|x pre (σ & temp & Hs & Hst)] using rev_ind.
  - eexists _, _. split; [done|]. unfold pulled. simpl.
    split; [rewrite length_app; simpl; lia|constructor].
  - destruct (slicesOf_step size σ0 σ temp _ x Hst)
      as (σ' & temp' & ys & Hbody & Hst').
    exists σ', temp'. rewrite state_after_snoc, pulled_snoc, Hs.
    cbn [mbind option_bind]. by rewrite Hbody.
Qed.

Lemma slicesOfOverlapping_step size σ0 σ temp ws x :
  stable σ temp ws →
  ∃ σ' ys,
    body (slicesOfOverlapping_recipe size σ0) (σ, temp) x =
      (ys, Some (σ', temp)) ∧
    stable σ' temp (ws ++ ys).
Proof.
  intros Hst. simpl.
  set (σ1 := array_push σ temp x).
  assert (stable σ1 temp ws) as Hst1 by (by apply stable_write).
  set (σ2 := if size <? Z.of_nat (length (deref σ1 temp))
             then array_shift σ1 temp else σ1).
  assert (stable σ2 temp ws) as Hst2.
  { unfold σ2. destruct (size <? _); [by apply stable_write|done]. }
  destruct (Z.of_nat (length (deref σ2 temp)) =? size).
  - eexists _, _. split; [done|]. by apply stable_copy.
  - eexists _, _. split; [done|]. by rewrite app_nil_r.
Qed.

Lemma slicesOfOverlapping_run size σ0 pre :
  ∃ σ,
    state_after (slicesOfOverlapping_recipe size σ0) pre =
      Some (σ, length σ0) ∧
    stable σ (length σ0) (pulled (slicesOfOverlapping_recipe size σ0) pre).
Proof.
  induction pre as [|x pre (σ & Hs & Hst)] using rev_ind.
  - unfold state_after, pulled. simpl. destruct (size =? 0); simpl.
    + eexists. split; [done|].
      apply (stable_copy (σ0 ++ [[]]) (length σ0) [] _).
      split; [rewrite length_app; simpl; lia|constructor].
    + eexists. split; [done|].
      split; [rewrite length_app; simpl; lia|constructor].
  - destruct (slicesOfOverlapping_step size σ0 σ (length σ0) _ x Hst)
      as (σ' & ys & Hbody & Hst').
    exists σ'. rewrite state_after_snoc, pulled_snoc, Hs.
    cbn [mbind option_bind]. by rewrite Hbody.
Qed.
End StoreFacts.

(** ** Windows of width zero *)

Section ZeroWidth.
Context {T : Type}.
Implicit Types (σ : list (list T)).

Lemma slicesOf_zero_run σ0 (pre : list T) :
  ∃ σ temp,
    state_after (slicesOf_recipe 0 σ0) pre = Some (σ, temp) ∧
    deref σ temp = [] ∧
    seen <$> pulled (slicesOf_recipe 0 σ0) pre = replicate (length pre) [].
Proof.
  induction pre as [|x pre (σ & temp & Hs & Hempty & Hout)] using rev_ind.
  - eexists _, _. split_and!; [done| |done]. simpl. apply deref_alloc.
  - exists (σ ++ [[]]), (length σ).
    rewrite state_after_snoc, pulled_snoc, Hs. cbn [mbind option_bind].
    simpl. rewrite Hempty. simpl. rewrite Hempty. simpl.
    split_and!; [done|apply deref_alloc|].
    rewrite fmap_app, Hout, length_app. simpl. unfold new_It. rewrite Hempty.
    simpl. rewrite Nat.add_1_r. by rewrite replicate_S_end.
Qed.

Lemma slicesOfOverlapping_zero_step σ0 σ temp (x : T) :
  (temp < length σ)%nat → deref σ temp = [] →
  ∃ σ',
    body (slicesOfOverlapping_recipe 0 σ0) (σ, temp) x =
      ([{| backing := length σ'; seen := [] |}], Some (σ' ++ [[]], temp)) ∧
    length σ' = length σ ∧ deref σ' temp = [].
Proof.
  intros Hlen Hempty. exists (<[temp:=[]]> (<[temp:=[x]]> σ)).
  split_and!; [|by rewrite !length_insert|
               by rewrite deref_insert by (by rewrite length_insert)].
  simpl. unfold array_push, array_shift. rewrite Hempty. simpl.
  rewrite !deref_insert by (by rewrite ?length_insert). simpl.
  rewrite !deref_insert by (by rewrite ?length_insert). simpl.
  unfold new_It. by rewrite deref_alloc.
Qed.

Lemma slicesOfOverlapping_zero_run σ0 (pre : list T) :
  ∃ σ,
    state_after (slicesOfOverlapping_recipe 0 σ0) pre = Some (σ, length σ0) ∧
    (length σ0 < length σ)%nat ∧
    deref σ (length σ0) = [] ∧
    seen <$> pulled (slicesOfOverlapping_recipe 0 σ0) pre =
      replicate (S (length pre)) [].
Proof.
  induction pre as [|x pre (σ & Hs & Hlen & Hempty & Hout)] using rev_ind.
  - eexists. split_and!; [done|..].
    + rewrite !length_app. simpl. lia.
    + unfold deref. rewrite lookup_app_l by (rewrite length_app; simpl; lia).
      by rewrite lookup_app_r, Nat.sub_diag.
    + unfold pulled. simpl. by rewrite !deref_alloc.
  - destruct (slicesOfOverlapping_zero_step σ0 σ (length σ0) x Hlen Hempty)
      as (σ' & Hbody & Hlen' & Hempty').
    exists (σ' ++ [[]]).
    rewrite state_after_snoc, pulled_snoc, Hs. cbn [mbind option_bind].
    rewrite Hbody. cbn [fst snd].
    split_and!; [done|..].
    + rewrite length_app. lia.
    + unfold deref in *. by rewrite lookup_app_l by lia.
    + rewrite fmap_app, Hout, length_app. simpl.
      rewrite Nat.add_1_r. by rewrite (replicate_S_end (length pre)).
Qed.
End ZeroWidth.

(** C1, as the code has it: with [size] zero, [slicesOf] yields an empty chunk
    for every element it pulls from the source and one more when the source
    is exhausted, [length + 1] empty chunks in all; the result is a single
    empty chunk only for the empty source. *)
Theorem slicesOf_zero_chunks {T} (iter : list T) (σ0 : list (list T)) :
  seen <$> slicesOf iter 0 σ0 = replicate (S (length iter)) [] ∧
  ∀ pre : list T,
    seen <$> pulled (slicesOf_recipe 0 σ0) pre = replicate (length pre) [].
Proof.
  split.
  - destruct (slicesOf_zero_run σ0 iter) as (σ & temp & Hs & Hempty & Hout).
    unfold slicesOf, genIt. rewrite traverse_pulled, Hs, fmap_app, Hout.
    simpl. unfold new_It. rewrite Hempty. simpl.
    by rewrite <- replicate_S_end.
  - intros pre. by destruct (slicesOf_zero_run σ0 pre) as (? & ? & _ & _ & ?).
Qed.

(** C1 as stated fails: on a source of two elements, [slicesOf] with [size]
    zero yields three chunks, not one. *)
Lemma slicesOf_zero_not_single :
  length (slicesOf [VNumber 1; VNumber 2] 0 []) ≠ 1%nat.
Proof. vm_compute. lia. Qed.

(** C2, as the code has it: with [size] zero, [slicesOfOverlapping] yields
    one empty window before it pulls any element and one more empty window
    after every element it pulls, [length + 1] empty windows in all. *)
Theorem slicesOfOverlapping_zero_windows {T} (iter : list T)
    (σ0 : list (list T)) :
  seen <$> pulled (slicesOfOverlapping_recipe 0 σ0) ([] : list T) = [[]] ∧
  (∀ pre : list T,
     seen <$> pulled (slicesOfOverlapping_recipe 0 σ0) pre =
       replicate (S (length pre)) []) ∧
  seen <$> slicesOfOverlapping iter 0 σ0 = replicate (S (length iter)) [].
Proof.
  assert (∀ pre : list T,
    seen <$> pulled (slicesOfOverlapping_recipe 0 σ0) pre =
      replicate (S (length pre)) []) as Hpulled.
  { intros pre.
    by destruct (slicesOfOverlapping_zero_run σ0 pre) as (? & _ & _ & _ & ?). }
  split_and!; [apply (Hpulled [])|done|].
  unfold slicesOfOverlapping, genIt. rewrite traverse_pulled.
  destruct (state_after _ _) as [s|];
    [change (epilogue _ s) with (@nil (window T))|];
    rewrite app_nil_r; apply Hpulled.
Qed.

(** C2 as stated fails: on a source of two elements, [slicesOfOverlapping]
    with [size] zero yields three windows, two of them after the first. *)
Lemma slicesOfOverlapping_zero_not_single :
  length (slicesOfOverlapping [VNumber 1; VNumber 2] 0 []) ≠ 1%nat.
Proof. vm_compute. lia. Qed.

(** ** Windows that are kept *)

Lemma permutations_loop_backing {T} `{!Undefined T} fuel arr
    (σ σ' : list (list T)) c i (ws : list (window T)) :
  permutations_loop fuel arr σ c i = Some (ws, σ') →
  Forall (λ w, backing w = arr) ws.
Proof.
  revert σ c i ws. induction fuel as [|fuel IH]; intros σ c i ws; [done|].
  simpl. destruct (i <? _)%nat; [|intros [= <- <-]; constructor].
  destruct (c !!! i <? i)%nat; [|apply IH].
  destruct (permutations_loop fuel arr _ _ _) as [[ws1 σ1]|] eqn:Hrec; [|done].
  simpl. intros [= <- <-]. constructor; [done|]. by eapply IH.
Qed.

Lemma stable_later {T} (σ : list (list T)) temp (ws : list (window T)) w :
  stable σ temp ws → w ∈ ws → deref σ (backing w) = seen w.
Proof.
  intros [_ Hws] Hw. rewrite Forall_forall in Hws.
  destruct (Hws w Hw) as [_ Hlook]. by apply deref_lookup.
Qed.

(** C10: a window yielded by [slicesOf] or [slicesOfOverlapping] is backed by
    an array the combinator does not write to afterwards.  Whatever the
    source goes on to deliver ([ext] after [pre]), the store then holds, for
    every window yielded while [pre] was pulled, what the window showed when
    it was yielded; the same holds at the end of a full traversal for all its
    windows.  [permutations] differs: all its windows are backed by one
    array, which it keeps permuting. *)
Theorem yielded_windows_not_mutated {T} `{!Undefined T} (size : Z)
    (σ0 : list (list T)) (pre ext : list T) :
  (∃ σ temp,
     state_after (slicesOf_recipe size σ0) (pre ++ ext) = Some (σ, temp) ∧
     (∀ w, w ∈ pulled (slicesOf_recipe size σ0) pre →
           deref σ (backing w) = seen w) ∧
     (∀ w, w ∈ slicesOf (pre ++ ext) size σ0 →
           deref σ (backing w) = seen w)) ∧
  (∃ σ temp,
     state_after (slicesOfOverlapping_recipe size σ0) (pre ++ ext) =
       Some (σ, temp) ∧
     (∀ w, w ∈ pulled (slicesOfOverlapping_recipe size σ0) pre →
           deref σ (backing w) = seen w) ∧
     (∀ w, w ∈ slicesOfOverlapping (pre ++ ext) size σ0 →
           deref σ (backing w) = seen w)) ∧
  (∀ fuel ws σ,
     permutations_fuel fuel pre σ0 = Some (ws, σ) →
     ∀ w, w ∈ ws → backing w = length σ0) ∧
  permutations_fuel 5 [VNumber 1; VNumber 2] [] =
    Some ([{| backing := 0; seen := [VNumber 1; VNumber 2] |};
           {| backing := 0; seen := [VNumber 2; VNumber 1] |}],
          [[VNumber 2; VNumber 1]]).
Proof.
  split_and!; [| | |done].
  - destruct (slicesOf_run size σ0 (pre ++ ext)) as (σ & temp & Hs & Hst).
    exists σ, temp. split_and!; [done|..].
    + intros w Hw. apply (stable_later _ _ _ _ Hst).
      rewrite pulled_app. apply elem_of_app. by left.
    + intros w. unfold slicesOf, genIt. rewrite traverse_pulled, Hs.
      intros [Hw|Hw]%elem_of_app; [by apply (stable_later _ _ _ _ Hst)|].
      simpl in Hw. destruct (_ || _); [|by apply elem_of_nil in Hw].
      by apply list_elem_of_singleton in Hw as ->.
  - destruct (slicesOfOverlapping_run size σ0 (pre ++ ext)) as (σ & Hs & Hst).
    exists σ, (length σ0). split_and!; [done|..].
    + intros w Hw. apply (stable_later _ _ _ _ Hst).
      rewrite pulled_app. apply elem_of_app. by left.
    + intros w. unfold slicesOfOverlapping, genIt.
      rewrite traverse_pulled, Hs.
      intros [Hw|Hw]%elem_of_app; [by apply (stable_later _ _ _ _ Hst)|].
      by apply elem_of_nil in Hw.
  - intros fuel ws σ. unfold permutations_fuel. simpl.
    destruct (permutations_loop _ _ _ _ _) as [[ws1 σ1]|] eqn:Hloop; [|done].
    simpl. intros [= <- <-] w [->|Hw]%elem_of_cons; [done|].
    apply permutations_loop_backing in Hloop.
    rewrite Forall_forall in Hloop. by apply Hloop.
Qed.

Lemma yielded_windows_not_mutated_witness :
  (∃ σ temp,
     state_after (slicesOf_recipe 2 [])
       ([VNumber 1; VNumber 2] ++ [VNumber 3]) = Some (σ, temp) ∧
     deref σ 0 = [VNumber 1; VNumber 2]) ∧
  backing {| backing := 0%nat; seen := [VNumber 2; VNumber 1] |} = 0%nat.
Proof.
  destruct (yielded_windows_not_mutated 2 [] [VNumber 1; VNumber 2]
              [VNumber 3]) as ((σ & temp & Hs & Hkept & _) & _ & Hperm & _).
  split.
  - exists σ, temp. split; [exact Hs|].
    apply (Hkept {| backing := 0%nat; seen := [VNumber 1; VNumber 2] |}).
    apply list_elem_of_here.
  - apply (Hperm 5%nat
             [{| backing := 0%nat; seen := [VNumber 1; VNumber 2] |};
              {| backing := 0%nat; seen := [VNumber 2; VNumber 1] |}]
             [[VNumber 2; VNumber 1]]); [reflexivity|].
    apply list_elem_of_further, list_elem_of_here.
Defined.

(** ** Where the swap procedure moves the positions *)

Section PositionMaps.
Local Open Scope nat_scope.

Lemma parity_cases (m : nat) :
  (Nat.even m = true ∧ ∃ q, m = 2 * q) ∨
  (Nat.even m = false ∧ ∃ q, m = 2 * q + 1).
Proof.
  destruct (Nat.even m) eqn:E.
  - left. split; [done|]. by apply Nat.even_spec in E.
  - right. split; [done|]. apply Nat.odd_spec. by rewrite <- Nat.negb_even, E.
Qed.

Lemma even_S (m : nat) : Nat.even (S m) = negb (Nat.even m).
Proof. by rewrite Nat.even_succ, <- Nat.negb_even. Qed.

Ltac parity m :=
  let q := fresh "q" in
  let E := fresh "E" in
  destruct (parity_cases m) as [[E [q ?]]|[E [q ?]]];
  try congruence; try (rewrite E; simpl negb).

Ltac cases := repeat (case_decide; try lia).

Lemma exchange_exchange j i p : exchange j i (exchange j i p) = p.
Proof. unfold exchange. cases. Qed.

Lemma round_start_above i m p : m ≤ S i → i < p → round_start i m p = p.
Proof.
  revert p. induction m as [|m IH]; intros p Hm Hp; simpl; [done|].
  assert (net_effect i (exchange (pick i m) i p) = p) as ->.
  { unfold net_effect, exchange, pick, cycle. destruct (Nat.even i); cases. }
  apply IH; lia.
Qed.

Lemma round_start_le i m p : m ≤ i → p ≤ i → round_start i m p ≤ i.
Proof.
  revert p. induction m as [|m IH]; intros p Hm Hp; simpl; [done|].
  apply IH; [lia|].
  unfold net_effect, exchange, pick, cycle. destruct (Nat.even i); cases.
Qed.

(** *** Odd positions *)

Lemma round_start_odd_step i m p :
  Nat.even i = false → 3 ≤ i → m < i →
  round_start_odd i m (exchange 0 (i - 1) (exchange m i p)) =
  round_start_odd i (S m) p.
Proof.
  intros Hi Hi3 Hm. parity i.
  unfold round_start_odd. rewrite even_S. parity m; unfold exchange; cases.
Qed.

Lemma round_start_odd_closed i m p :
  Nat.even i = false → 3 ≤ i → m ≤ i →
  round_start i m p = round_start_odd i m p.
Proof.
  intros Hi Hi3. revert p. induction m as [|m IH]; intros p Hm.
  - simpl. unfold round_start_odd. simpl. cases.
  - simpl. rewrite IH by lia. unfold net_effect, pick. rewrite Hi.
    apply round_start_odd_step; [done|lia..].
Qed.

Lemma round_start_odd_keys i m m' :
  Nat.even i = false → m < m' → m' ≤ i →
  round_start i m i ≠ round_start i m' i.
Proof.
  intros Hi Hm Hm'. destruct (decide (i = 1)) as [->|Hi1].
  - assert (m = 0) as -> by lia. assert (m' = 1) as -> by lia. done.
  - parity i. rewrite !round_start_odd_closed by (done || lia).
    unfold round_start_odd. cases.
Qed.

Lemma round_start_odd_final i p :
  Nat.even i = false → round_start i i (net_effect i p) = net_effect (S i) p.
Proof.
  intros Hi. destruct (decide (i = 1)) as [->|Hi1].
  - simpl. unfold net_effect, pick, exchange, cycle. simpl. cases.
  - parity i. rewrite round_start_odd_closed by (done || lia).
    unfold net_effect. rewrite even_S, Hi. simpl.
    unfold round_start_odd, exchange, cycle. rewrite Hi. cases.
Qed.

(** *** Even positions *)

Lemma round_start_even_S i m p :
  Nat.even i = true → round_start i (S m) p = round_start i m (turn i p).
Proof. intros Hi. simpl. unfold net_effect, pick, turn. by rewrite Hi. Qed.

Lemma round_start_even_add i m1 m2 p :
  Nat.even i = true →
  round_start i (m1 + m2) p = round_start i m2 (round_start i m1 p).
Proof.
  intros Hi. revert p. induction m1 as [|m1 IH]; intros p; [done|].
  rewrite Nat.add_succ_l, !round_start_even_S by done. apply IH.
Qed.

Lemma turn_orbit i r :
  Nat.even i = true → 2 ≤ i → r ≤ i →
  turn i (orbit i r) = orbit i (if decide (r = i) then 0 else S r).
Proof.
  intros Hi Hi2 Hr. parity i.
  unfold turn, orbit, exchange, cycle. cases.
Qed.

Lemma orbit_orbit i r : orbit i (orbit i r) = r.
Proof. unfold orbit. cases. Qed.

Lemma orbit_le i r : r ≤ i → orbit i r ≤ i.
Proof. unfold orbit. cases. Qed.

Lemma round_start_orbit i m r :
  Nat.even i = true → 2 ≤ i → r + m ≤ i →
  round_start i m (orbit i r) = orbit i (r + m).
Proof.
  intros Hi Hi2. revert r. induction m as [|m IH]; intros r Hr.
  - by rewrite Nat.add_0_r.
  - rewrite round_start_even_S, turn_orbit by (done || lia).
    case_decide; [lia|]. rewrite IH by lia. f_equal. lia.
Qed.

Lemma round_start_even_keys i m m' :
  Nat.even i = true → m < m' → m' ≤ i →
  round_start i m i ≠ round_start i m' i.
Proof.
  intros Hi Hm Hm'. assert (2 ≤ i).
  { destruct i as [|[|i]]; [lia|done|lia]. }
  assert (i = orbit i 0) as Hi0 by (unfold orbit; cases).
  rewrite Hi0 at 2 4. rewrite !round_start_orbit by (done || lia). simpl.
  unfold orbit. cases.
Qed.

Lemma round_start_even_cycle i q :
  Nat.even i = true → 2 ≤ i → round_start i (S i) q = q.
Proof.
  intros Hi Hi2.
  destruct (decide (i < q)) as [Hq|Hq]; [by apply round_start_above|].
  rewrite <- (orbit_orbit i q) at 1. set (r := orbit i q).
  assert (r ≤ i) by (apply orbit_le; lia).
  replace (S i) with ((i - r) + S r) by lia.
  rewrite round_start_even_add, round_start_orbit by (done || lia).
  replace (r + (i - r)) with i by lia.
  rewrite round_start_even_S, turn_orbit by (done || lia).
  case_decide; [|done].
  rewrite round_start_orbit by (done || lia). apply orbit_orbit.
Qed.

Lemma round_start_even_final i p :
  Nat.even i = true → round_start i i (net_effect i p) = net_effect (S i) p.
Proof.
  intros Hi. unfold net_effect at 2. rewrite even_S, Hi. simpl.
  rewrite Nat.sub_0_r.
  destruct (decide (i = 0)) as [->|Hi0].
  { simpl. unfold net_effect, cycle, exchange. simpl. cases. }
  assert (2 ≤ i) by (destruct i as [|[|i]]; [lia|done|lia]).
  unfold net_effect at 1. rewrite Hi.
  rewrite <- (exchange_exchange 0 i p) at 1. fold (turn i (exchange 0 i p)).
  rewrite <- round_start_even_S by done. by apply round_start_even_cycle.
Qed.

(** *** Both parities *)

(** The element that sits at position [i] differs from round to round. *)
Lemma round_start_keys i m m' :
  m < m' → m' ≤ i → round_start i m i ≠ round_start i m' i.
Proof.
  destruct (Nat.even i) eqn:Hi;
    [by apply round_start_even_keys|by apply round_start_odd_keys].
Qed.

(** The last round followed by level [i] is level [S i] as a whole. *)
Lemma round_start_final i p :
  round_start i i (net_effect i p) = net_effect (S i) p.
Proof.
  destruct (Nat.even i) eqn:Hi;
    [by apply round_start_even_final|by apply round_start_odd_final].
Qed.

Lemma net_effect_above k p : k ≤ p → net_effect k p = p.
Proof. intros Hp. unfold net_effect, cycle, exchange. destruct (Nat.even k); cases. Qed.

Lemma net_effect_below k p : p < k → net_effect k p < k.
Proof. intros Hp. unfold net_effect, cycle, exchange. destruct (Nat.even k); cases. Qed.
End PositionMaps.

(** ** The swap procedure on arrays *)

Section SwapFacts.
Context {T : Type} `{!Undefined T}.
Implicit Types (a b : list T) (c : list nat).
Local Open Scope nat_scope.

Lemma array_set_insert a i x : i < length a → array_set a i x = <[i:=x]> a.
Proof. intros Hi. unfold array_set. by destruct (Nat.ltb_spec i (length a)); [|lia]. Qed.

Lemma array_get_lookup a i : i < length a → a !! i = Some (array_get a i).
Proof.
  intros Hi. unfold array_get.
  by destruct (lookup_lt_is_Some_2 a i Hi) as [x ->].
Qed.

Lemma swap_inserts a j i :
  j < length a → i < length a →
  swap a j i = <[i:=array_get a j]> (<[j:=array_get a i]> a).
Proof.
  intros Hj Hi. unfold swap.
  rewrite (array_set_insert a j) by done.
  by rewrite array_set_insert by (by rewrite length_insert).
Qed.

Lemma swap_length a j i :
  j < length a → i < length a → length (swap a j i) = length a.
Proof. intros Hj Hi. by rewrite swap_inserts, !length_insert. Qed.

Lemma swap_arranged a j i :
  j < length a → i < length a → arranged (exchange j i) a (swap a j i).
Proof.
  intros Hj Hi p. rewrite swap_inserts by done. unfold exchange.
  destruct (decide (p = i)) as [->|Hpi].
  - rewrite list_lookup_insert_eq by (by rewrite length_insert).
    by rewrite <- array_get_lookup.
  - rewrite list_lookup_insert_ne by done.
    destruct (decide (p = j)) as [->|Hpj].
    + rewrite list_lookup_insert_eq by done. by rewrite <- array_get_lookup.
    + by rewrite list_lookup_insert_ne.
Qed.

Lemma exchange_inj j i : Inj (=) (=) (exchange j i).
Proof. intros p q. unfold exchange. repeat case_decide; lia. Qed.

Lemma swap_perm a j i : j < length a → i < length a → swap a j i ≡ₚ a.
Proof.
  intros Hj Hi. apply Permutation_inj. split; [by apply swap_length|].
  exists (exchange j i). split; [apply exchange_inj|by apply swap_arranged].
Qed.

Lemma prepend_nil r : prepend (T:=T) [] r = r.
Proof. by destruct r as [[o a]|]. Qed.

Lemma prepend_app out1 out2 r :
  prepend (T:=T) (out1 ++ out2) r = prepend out1 (prepend out2 r).
Proof. destruct r as [[o a]|]; simpl; [|done]. by rewrite (assoc_L (++)). Qed.
End SwapFacts.

(** ** The loop of [permutations] runs the levels *)

Section LoopFacts.
Context {T : Type} `{!Undefined T}.
Implicit Types (a b : list T) (c : list nat).
Local Open Scope nat_scope.

Lemma loop_runs_rounds i :
  loop_runs_level i →
  ∀ r m b c f,
    m + r = i → i < length b → c !! i = Some m →
    (∀ j, j < i → c !! j = Some 0) →
    swap_loop (r * S (swap_steps i) + 1 + f) b c i =
    prepend (swap_rounds (swap_level i) i m r b).1
      (swap_loop f (swap_rounds (swap_level i) i m r b).2 (<[i:=0]> c) (S i)) ∧
    length (swap_rounds (swap_level i) i m r b).2 = length b.
Proof.
  intros Hlevel. induction r as [|r IH]; intros m b c f Hmr Hi Hci Hc.
  - simpl. destruct (Nat.ltb_spec i (length b)); [|lia].
    rewrite (list_lookup_total_correct _ _ _ Hci).
    destruct (Nat.ltb_spec m i); [lia|].
    by rewrite prepend_nil.
  - replace (S r * S (swap_steps i) + 1 + f)
      with (S (swap_steps i + (r * S (swap_steps i) + 1 + f))) by lia.
    cbn [swap_loop swap_rounds].
    destruct (Nat.ltb_spec i (length b)); [|lia].
    rewrite (list_lookup_total_correct _ _ _ Hci).
    destruct (Nat.ltb_spec m i); [|lia].
    set (a1 := swap b (if Nat.even i then 0 else m) i).
    assert (length a1 = length b) as Hlen1.
    { apply swap_length; [destruct (Nat.even i); lia|done]. }
    destruct (Hlevel a1 (<[i:=S m]> c) (r * S (swap_steps i) + 1 + f))
      as [Hrun Hlen2]; [lia| |].
    { intros j Hj. rewrite list_lookup_insert_ne by lia. by apply Hc. }
    rewrite Hrun. destruct (swap_level i a1) as [out1 a2] eqn:Hl1.
    cbn [fst snd] in *.
    destruct (IH (S m) a2 (<[i:=S m]> c) f) as [Hrest Hlen3]; [lia|lia| | |].
    { apply list_lookup_insert_eq. by eapply lookup_lt_Some. }
    { intros j Hj. rewrite list_lookup_insert_ne by lia. by apply Hc. }
    rewrite Hrest, list_insert_insert_eq.
    destruct (swap_rounds (swap_level i) i (S m) r a2) as [out2 a3] eqn:Hr2.
    cbn [fst snd] in *. split; [|congruence].
    destruct (swap_loop f a3 (<[i:=0]> c) (S i)) as [[o a4]|]; simpl; [|done].
    by rewrite (assoc_L (++)).
Qed.

Lemma loop_runs_levels k : loop_runs_level k.
Proof.
  induction k as [|i IH]; intros a c f Hk Hc.
  - simpl. by rewrite prepend_nil.
  - replace (swap_steps (S i) + f)
      with (swap_steps i + (i * S (swap_steps i) + 1 + f)) by (simpl; lia).
    destruct (IH a c (i * S (swap_steps i) + 1 + f)) as [Hrun Hlen];
      [lia|intros; apply Hc; lia|].
    rewrite Hrun. cbn [swap_level].
    destruct (swap_level i a) as [out0 a0] eqn:Hl0. cbn [fst snd] in *.
    destruct (loop_runs_rounds i IH i 0 a0 c f) as [Hrounds Hlen'];
      [lia|lia|apply Hc; lia|intros; apply Hc; lia|].
    rewrite Hrounds, (list_insert_id c i 0) by (apply Hc; lia).
    destruct (swap_rounds (swap_level i) i 0 i a0) as [out a'] eqn:Hr.
    cbn [fst snd] in *. split; [|congruence].
    by rewrite prepend_app.
Qed.
End LoopFacts.

Section LevelFacts.
Context {T : Type} `{!Undefined T}.
Implicit Types (a b x : list T) (out : list (list T)).
Local Open Scope nat_scope.

Lemma keys_differ a i m m' :
  NoDup a → i < length a → m < m' → m' ≤ i →
  a !! round_start i m i ≠ a !! round_start i m' i.
Proof.
  intros Ha Hi Hm Hm' Heq.
  pose proof (round_start_le i m i ltac:(lia) ltac:(lia)) as Hle.
  destruct (lookup_lt_is_Some_2 a (round_start i m i) ltac:(lia)) as [y Hy].
  rewrite Hy in Heq. symmetry in Heq.
  by apply (round_start_keys i m m' Hm Hm'), (NoDup_lookup a _ _ y).
Qed.

Lemma rounds_correct i a :
  level_spec i → S i ≤ length a →
  ∀ r m b,
    m + r = i → length b = length a → b ≡ₚ a →
    arranged (λ p, round_start i m (net_effect i p)) a b →
    rounds_spec i a m r b.
Proof.
  intros Hlevel Hi. induction r as [|r IH]; intros m b Hmr Hlen Hperm Harr.
  - assert (m = i) as -> by lia. unfold rounds_spec. simpl.
    split_and!; [done..| |done|constructor].
    intros x Hx. by apply elem_of_nil in Hx.
  - unfold rounds_spec. cbn [swap_rounds].
    set (a1 := swap b (if Nat.even i then 0 else m) i).
    assert ((if Nat.even i then 0 else m) < length b) as Hj
      by (destruct (Nat.even i); lia).
    assert (length a1 = length a) as Hlen1
      by (unfold a1; rewrite swap_length; lia).
    assert (a1 ≡ₚ a) as Hperm1
      by (unfold a1; rewrite swap_perm; [done|lia..]).
    assert (arranged (round_start i (S m)) a a1) as Harr1.
    { intros p. unfold a1. rewrite swap_arranged by lia. by rewrite Harr. }
    destruct (Hlevel a1 ltac:(lia))
      as (Hlen2 & Hperm2 & Harr2 & Hout1 & Hcount1 & Hnodup1).
    destruct (swap_level i a1) as [out1 a2] eqn:Hl1. cbn [fst snd] in *.
    destruct (IH (S m) a2) as (Hlen3 & Hperm3 & Harr3 & Hout2 & Hcount2 & Hnodup2);
      [lia|lia|by rewrite Hperm2| |].
    { intros p. by rewrite Harr2, Harr1. }
    destruct (swap_rounds (swap_level i) i (S m) r a2) as [out2 a3] eqn:Hr2.
    cbn [fst snd] in *.
    assert (∀ x, x ∈ a1 :: out1 →
      length x = length a ∧ x ≡ₚ a ∧ (∀ p, S i ≤ p → x !! p = a !! p) ∧
      x !! i = a !! round_start i (S m) i) as Hblock.
    { intros x [->|Hx]%elem_of_cons.
      - split_and!; [done..| |by rewrite Harr1].
        intros p Hp. rewrite Harr1. by rewrite round_start_above by lia.
      - destruct (Hout1 x Hx) as (Hlx & Hpx & Hfx).
        split_and!; [lia|by rewrite Hpx| |by rewrite Hfx, Harr1 by lia].
        intros p Hp. rewrite Hfx, Harr1 by lia.
        by rewrite round_start_above by lia. }
    split_and!; [done..| | |].
    + intros x [Hx|Hx]%(elem_of_app (a1 :: out1)).
      * destruct (Hblock x Hx) as (? & ? & ? & ?).
        split_and!; [done..|]. exists (S m). split_and!; [lia..|done].
      * destruct (Hout2 x Hx) as (? & ? & ? & m' & ? & ? & ?).
        split_and!; [done..|]. exists m'. split_and!; [lia..|done].
    + simpl. rewrite length_app, Hcount2. lia.
    + intros Ha. apply (NoDup_app (a1 :: out1)). split_and!.
      * apply Hnodup1. by rewrite Hperm1.
      * intros x Hx1 Hx2.
        destruct (Hblock x Hx1) as (_ & _ & _ & Hkey1).
        destruct (Hout2 x Hx2) as (_ & _ & _ & m' & ? & ? & Hkey2).
        apply (keys_differ a i (S m) m'); [done|lia..|congruence].
      * by apply Hnodup2.
Qed.

Lemma levels_correct k : level_spec k.
Proof.
  induction k as [|i IH]; intros a Hk.
  - simpl. split_and!; [done..| | |done|].
    + intros p. by rewrite net_effect_above by lia.
    + intros x Hx. by apply elem_of_nil in Hx.
    + intros _. apply NoDup_singleton.
  - cbn [swap_level].
    destruct (IH a ltac:(lia))
      as (Hlen0 & Hperm0 & Harr0 & Hout0 & Hcount0 & Hnodup0).
    destruct (swap_level i a) as [out0 a0] eqn:Hl0. cbn [fst snd] in *.
    destruct (rounds_correct i a IH Hk i 0 a0)
      as (Hlen & Hperm & Harr & Hout & Hcount & Hnodup); [lia|done..|].
    destruct (swap_rounds (swap_level i) i 0 i a0) as [out a'] eqn:Hr.
    cbn [fst snd] in *.
    split_and!; [done..| | | |].
    + intros p. by rewrite Harr, round_start_final.
    + intros x [Hx|Hx]%elem_of_app.
      * destruct (Hout0 x Hx) as (? & ? & Hfx).
        split_and!; [done..|]. intros p Hp. apply Hfx. lia.
      * by destruct (Hout x Hx) as (? & ? & ? & _).
    + rewrite length_app, Hcount. simpl. lia.
    + intros Ha. apply (NoDup_app (a :: out0)). split_and!.
      * by apply Hnodup0.
      * intros x Hx1 Hx2.
        destruct (Hout x Hx2) as (_ & _ & _ & m' & ? & ? & Hkey2).
        assert (x !! i = a !! round_start i 0 i) as Hkey1.
        { apply elem_of_cons in Hx1 as [->|Hx1]; [done|].
          destruct (Hout0 x Hx1) as (_ & _ & Hfx). by apply Hfx. }
        apply (keys_differ a i 0 m'); [done|lia..|congruence].
      * by apply Hnodup.
Qed.
End LevelFacts.

Section PermutationsFacts.
Context {T : Type} `{!Undefined T}.
Implicit Types (σ : list (list T)) (c : list nat).
Local Open Scope nat_scope.

(** The loop on the store is the loop on the contents of the one array it
    writes to. *)
Lemma permutations_loop_contents fuel arr σ c i :
  arr < length σ →
  permutations_loop fuel arr σ c i =
  in_store arr σ (swap_loop fuel (deref σ arr) c i).
Proof.
  revert σ c i. induction fuel as [|fuel IH]; intros σ c i Harr; [done|].
  cbn [permutations_loop swap_loop].
  destruct (i <? length (deref σ arr)).
  - destruct (c !!! i <? i).
    + unfold array_swap, new_It.
      rewrite IH by (by rewrite length_insert).
      rewrite deref_insert by done.
      destruct (swap_loop fuel _ _ _) as [[out a']|]; simpl; [|done].
      by rewrite list_insert_insert_eq.
    + by apply IH.
  - simpl. by rewrite list_insert_id by (by apply lookup_deref).
Qed.

Lemma seen_windows arr (out : list (list T)) :
  seen <$> (Window arr <$> out) = out.
Proof.
  induction out as [|x out IH]; [done|]. rewrite !fmap_cons. by rewrite IH.
Qed.

Lemma swap_loop_complete (a : list T) fuel :
  swap_steps (length a) < fuel →
  swap_loop fuel a (replicate (length a) 0) 0 =
  Some ((swap_level (length a) a).1, (swap_level (length a) a).2).
Proof.
  intros Hfuel.
  replace fuel with (swap_steps (length a) + S (fuel - S (swap_steps (length a))))
    by lia.
  destruct (loop_runs_levels (length a) a (replicate (length a) 0)
              (S (fuel - S (swap_steps (length a))))) as [-> Hlen]; [done| |].
  { intros j Hj. by apply lookup_replicate_2. }
  cbn [swap_loop]. rewrite Hlen.
  destruct (Nat.ltb_spec (length a) (length a)); [lia|].
  simpl. by rewrite app_nil_r.
Qed.
End PermutationsFacts.

(** C5, as the code has it: for a finite input of length [k], once the loop
    is given more evaluations of its test than the levels take,
    [permutations] yields exactly [k!] arrays, each a rearrangement of the
    input and the first in input order; their snapshots at the instants of
    the yields are pairwise distinct whenever the elements of the input
    are. *)
Theorem permutations_complete {T} `{!Undefined T} (iter : list T)
    (σ0 : list (list T)) (fuel : nat) :
  (swap_steps (length iter) < fuel)%nat →
  ∃ ws σ,
    permutations_fuel fuel iter σ0 = Some (ws, σ) ∧
    length ws = fact (length iter) ∧
    seen <$> head ws = Some iter ∧
    (∀ w, w ∈ ws → seen w ≡ₚ iter) ∧
    (NoDup iter → NoDup (seen <$> ws)).
Proof.
  intros Hfuel. unfold permutations_fuel, alloc, toArray, new_It.
  rewrite !deref_alloc.
  rewrite permutations_loop_contents by (rewrite length_app; simpl; lia).
  rewrite deref_alloc, swap_loop_complete by done. simpl.
  destruct (levels_correct (length iter) iter ltac:(done))
    as (_ & _ & _ & Hout & Hcount & Hnodup).
  destruct (swap_level (length iter) iter) as [out a'] eqn:Hl.
  cbn [fst snd] in *.
  eexists _, _. split_and!; [done| |done| |].
  - simpl. rewrite length_fmap. lia.
  - intros w [->|Hw]%elem_of_cons; [done|].
    apply list_elem_of_fmap in Hw as (x & -> & Hx). simpl.
    by destruct (Hout x Hx) as (_ & ? & _).
  - intros Hiter. simpl. rewrite seen_windows. by apply Hnodup.
Qed.

Lemma permutations_complete_witness :
  ∃ ws σ,
    permutations_fuel 20 [VNumber 1; VNumber 2; VNumber 3] [] = Some (ws, σ) ∧
    length ws = fact 3 ∧
    seen <$> head ws = Some [VNumber 1; VNumber 2; VNumber 3] ∧
    NoDup (seen <$> ws).
Proof.
  destruct (permutations_complete [VNumber 1; VNumber 2; VNumber 3] [] 20)
    as (ws & σ & Hrun & Hlen & Hfirst & _ & Hnodup); [vm_compute; lia|].
  exists ws, σ. split_and!; [done..|].
  apply Hnodup.
  repeat (apply NoDup_cons; split;
    [intros Hin;
     repeat (apply elem_of_cons in Hin as [Hin|Hin]; [discriminate|]);
     by apply elem_of_nil in Hin|]).
  apply NoDup_nil_2.
Defined.

(** C5 as stated fails: the two snapshots of [permutations] on [1, 1] are the
    same array [1, 1]. *)
Lemma permutations_repeated_element :
  ∃ ws σ,
    permutations_fuel 5%nat [VNumber 1; VNumber 1] [] = Some (ws, σ) ∧
    ¬ NoDup (seen <$> ws).
Proof.
  eexists _, _. split; [reflexivity|]. simpl.
  intros [Hin _]%NoDup_cons. apply Hin. apply list_elem_of_here.
Qed.

(** ** Transformations *)

Lemma mapBy_for_of_indexed {T U} (subject iter : list T)
    (fn : T → Z → list T → U) (k : nat) :
  for_of (mapBy_recipe subject fn) (Z.of_nat k) iter =
  imap (λ i v, fn v (Z.of_nat (k + i)) subject) iter.
Proof.
  revert k. induction iter as [|x iter IH]; intros k; simpl; [done|].
  rewrite Nat.add_0_r. f_equal.
  replace (Z.of_nat k + 1) with (Z.of_nat (S k)) by lia. rewrite IH.
  apply imap_ext. intros i y _. simpl. do 2 f_equal. lia.
Qed.

(** X1: [mapBy] yields as many elements as the source has, and the element at
    position [i] is [fn] applied to the source element at [i], the index [i]
    and the source itself. *)
Theorem mapBy_elements {T U} (iter : list T) (fn : T → Z → list T → U) :
  length (mapBy iter fn) = length iter ∧
  ∀ (i : nat) (v : T),
    iter !! i = Some v → mapBy iter fn !! i = Some (fn v (Z.of_nat i) iter).
Proof.
  assert (mapBy iter fn = imap (λ i v, fn v (Z.of_nat i) iter) iter) as ->.
  { unfold mapBy, genIt, traverse. simpl.
    apply (mapBy_for_of_indexed iter iter fn 0). }
  split; [apply length_imap|].
  intros i v Hv. by rewrite list_lookup_imap, Hv.
Qed.

Lemma mapBy_elements_witness :
  mapBy [VNumber 5; VNumber 7] (λ v i _, (v, i)) !! 1%nat =
  Some (VNumber 7, 1).
Proof.
  apply (mapBy_elements [VNumber 5; VNumber 7] (λ v i _, (v, i))).
  reflexivity.
Defined.

Lemma filterBy_for_of_indexed {T} (subject iter : list T)
    (fn : T → Z → list T → bool) (k : nat) :
  for_of (filterBy_recipe subject fn) (Z.of_nat k) iter =
  (snd <$> List.filter (λ p, fn p.2 (Z.of_nat p.1) subject)
             (imap (λ i v, ((k + i)%nat, v)) iter)).
Proof.
  revert k. induction iter as [|x iter IH]; intros k; [done|].
  rewrite imap_cons. cbn [for_of body filterBy_recipe List.filter fst snd].
  rewrite Nat.add_0_r.
  replace (Z.of_nat k + 1) with (Z.of_nat (S k)) by lia. rewrite IH.
  rewrite (imap_ext (λ i v, ((S k + i)%nat, v))
             ((λ i v, ((k + i)%nat, v)) ∘ S) iter)
    by (intros; simpl; f_equal; lia).
  by destruct (fn x (Z.of_nat k) subject).
Qed.

(** X2: [filterBy] keeps, in order, the elements on which [fn] answers true;
    the index handed to [fn] is the position of the element in the source,
    so elements that are filtered out still count. *)
Theorem filterBy_elements {T} (iter : list T) (fn : T → Z → list T → bool) :
  filterBy iter fn =
  snd <$> List.filter (λ p, fn p.2 (Z.of_nat p.1) iter) (imap pair iter).
Proof.
  unfold filterBy, genIt, traverse. simpl.
  apply (filterBy_for_of_indexed iter iter fn 0).
Qed.

Lemma count_loop_filter {T} (subject iter : list T)
    (fn : T → Z → list T → bool) (c : Z) (k : nat) :
  count_loop subject (Some fn) c (Z.of_nat k) iter =
  c + Z.of_nat (length (for_of (filterBy_recipe subject fn) (Z.of_nat k) iter)).
Proof.
  revert c k. induction iter as [|x iter IH]; intros c k; simpl; [lia|].
  replace (Z.of_nat k + 1) with (Z.of_nat (S k)) by lia.
  destruct (fn x (Z.of_nat k) subject); rewrite IH; simpl; lia.
Qed.

(** X3: [count] with a predicate counts what [filterBy] with the same
    predicate yields, and [count] without one counts the source. *)
Theorem count_filterBy {T} (iter : list T) (fn : T → Z → list T → bool) :
  count iter (Some fn) = count (filterBy iter fn) None ∧
  count iter None = Z.of_nat (length iter).
Proof.
  rewrite !count_length. split; [|done].
  unfold count, filterBy, genIt, traverse. simpl.
  etrans; [exact (count_loop_filter iter iter fn 0 0)|]. apply Z.add_0_l.
Qed.

(** ** [take], [drop] and [last] *)

(** X4: for every count, negative ones included, what [take] yields followed
    by what [drop] yields is the source; [take] of a count up to zero is empty
    and [drop] of such a count is the source. *)
Theorem take_drop_partition {T} (iter : list T) (num : Z) :
  take iter num ++ drop iter num = iter ∧
  (num ≤ 0 → take iter num = [] ∧ drop iter num = iter).
Proof.
  rewrite take_firstn, drop_skipn. split; [apply firstn_skipn|].
  intros Hnum. by replace (Z.to_nat num) with 0%nat by lia.
Qed.

Lemma take_drop_partition_witness :
  take [VNumber 1; VNumber 2] (-3) = [] ∧
  drop [VNumber 1; VNumber 2] (-3) = [VNumber 1; VNumber 2].
Proof. apply (take_drop_partition [VNumber 1; VNumber 2] (-3)). lia. Defined.

(** X5: dropping twice drops the sum of the two counts, a negative count
    counting as zero. *)
Theorem drop_twice {T} (iter : list T) (a b : Z) :
  drop (drop iter a) b = drop iter (Z.max a 0 + Z.max b 0).
Proof.
  rewrite !drop_skipn, skipn_skipn. f_equal. lia.
Qed.

Lemma take_state {T} (num : Z) (pre : list T) :
  Z.of_nat (length pre) ≤ num →
  state_after (take_recipe num) pre = Some (num - Z.of_nat (length pre)) ∧
  pulled (take_recipe num) pre = pre.
Proof.
  induction pre as [|x pre IH] using rev_ind; intros Hlen.
  { split; [|done]. unfold state_after. simpl. f_equal. lia. }
  rewrite length_app in *. simpl in *.
  destruct IH as [Hs Hp]; [lia|].
  rewrite state_after_snoc, pulled_snoc, Hs, Hp. simpl.
  destruct (Z.leb_spec (num - Z.of_nat (length pre)) 0); [lia|].
  simpl. split; [f_equal; lia|done].
Qed.

(** X6: [take] is lazy but looks one element ahead: once [num] elements have
    been pulled it has yielded all of them and is still suspended in its loop;
    it finishes only when it pulls one element more, which it does not
    yield. *)
Theorem take_pulls_one_more {T} (num : Z) (pre : list T) (x : T) :
  Z.of_nat (length pre) = Z.max num 0 →
  pulled (take_recipe num) pre = pre ∧
  is_Some (state_after (take_recipe num) pre) ∧
  state_after (take_recipe num) (pre ++ [x]) = None ∧
  pulled (take_recipe num) (pre ++ [x]) = pre.
Proof.
  intros Hlen.
  assert (state_after (take_recipe num) pre =
            Some (if 0 <=? num then 0 else num) ∧
          pulled (take_recipe num) pre = pre) as [Hs Hp].
  { destruct (Z.leb_spec 0 num).
    - destruct (take_state num pre) as [-> ->]; [lia|].
      split; [f_equal; lia|done].
    - destruct pre; [done|simpl in Hlen; lia]. }
  rewrite state_after_snoc, pulled_snoc, Hs, Hp. simpl.
  assert (((if 0 <=? num then 0 else num) <=? 0) = true) as ->.
  { destruct (Z.leb_spec 0 num); apply Z.leb_le; lia. }
  simpl. by rewrite app_nil_r.
Qed.

Lemma take_pulls_one_more_witness :
  state_after (take_recipe 2) ([VNumber 1; VNumber 2] ++ [VNumber 3]) = None ∧
  pulled (take_recipe 2) ([VNumber 1; VNumber 2] ++ [VNumber 3]) =
    [VNumber 1; VNumber 2].
Proof.
  apply (take_pulls_one_more 2 [VNumber 1; VNumber 2] (VNumber 3)).
  reflexivity.
Defined.

(** ** [last] and [max] *)

Section ScalarFacts.
Context {T : Type} `{!Undefined T}.

Lemma last_loop_snoc (r : T) (iter : list T) (x : T) :
  last_loop r (iter ++ [x]) = x.
Proof. revert r. induction iter as [|y iter IH]; intros r; simpl; [done|apply IH]. Qed.

(** X7: [last] of a sequence that ends in [x] is [x], which is also what [nth]
    gives at the last index. *)
Theorem last_is_final_element (iter : list T) (x : T) :
  last (iter ++ [x]) = x ∧
  last (iter ++ [x]) = nth (iter ++ [x]) (Z.of_nat (length iter)).
Proof.
  assert (last (iter ++ [x]) = x) as Hlast by apply last_loop_snoc.
  split; [done|]. rewrite Hlast. symmetry. apply nth_in_range.
  by rewrite lookup_app_r, Nat.sub_diag.
Qed.

Context `{!Relational T}.

Lemma max_loop_position (r : T) (isFirst : bool) (seen_before iter : list T) :
  (isFirst = false →
   ∃ l1 l2, seen_before = l1 ++ r :: l2 ∧ Forall (λ y, js_gt y r = false) l2) →
  (isFirst = true → seen_before = [] ∧ iter ≠ []) →
  ∃ l1 l2,
    seen_before ++ iter = l1 ++ max_loop r isFirst iter :: l2 ∧
    Forall (λ y, js_gt y (max_loop r isFirst iter) = false) l2.
Proof.
  revert r isFirst seen_before.
  induction iter as [|x iter IH]; intros r isFirst seen_before Hr Hfirst.
  - destruct isFirst; [by destruct Hfirst|].
    simpl. rewrite app_nil_r. by apply Hr.
  - simpl. destruct (isFirst || js_gt x r) eqn:Htest.
    + replace (seen_before ++ x :: iter) with ((seen_before ++ [x]) ++ iter)
        by (by rewrite <- (assoc_L (++))).
      apply IH; [|done]. intros _. exists seen_before, []. by split.
    + apply orb_false_iff in Htest as [-> Hgt].
      replace (seen_before ++ x :: iter) with ((seen_before ++ [x]) ++ iter)
        by (by rewrite <- (assoc_L (++))).
      apply IH; [|done]. intros _.
      destruct (Hr eq_refl) as (l1 & l2 & -> & Hl2).
      exists l1, (l2 ++ [x]). split; [by rewrite <- (assoc_L (++))|].
      apply Forall_app. split; [done|]. by constructor.
Qed.

(** X8: [max] of a non-empty sequence is one of its elements, and no element
    after it is greater than it by the host's [>]. *)
Theorem max_is_element (iter : list T) :
  iter ≠ [] →
  ∃ l1 l2,
    iter = l1 ++ max iter :: l2 ∧
    Forall (λ y, js_gt y (max iter) = false) l2.
Proof.
  intros Hne. apply (max_loop_position undefined true [] iter); [done|].
  by intros _.
Qed.
End ScalarFacts.

Lemma max_is_element_witness :
  ∃ l1 l2,
    [VNumber 3; VNumber 9; VNumber 4] =
      l1 ++ max [VNumber 3; VNumber 9; VNumber 4] :: l2 ∧
    Forall (λ y, js_gt y (max [VNumber 3; VNumber 9; VNumber 4]) = false) l2.
Proof. apply (max_is_element [VNumber 3; VNumber 9; VNumber 4]). discriminate. Defined.

Lemma max_loop_numbers_Z (m : Z) (zs : list Z) :
  max_loop (VNumber m) false (VNumber <$> zs) = VNumber (foldl Z.max m zs).
Proof.
  revert m. induction zs as [|z zs IH]; intros m; simpl; [done|].
  destruct (Z.ltb_spec m z); rewrite IH; do 2 f_equal; lia.
Qed.

Lemma foldl_max_bound (m : Z) (zs : list Z) :
  (foldl Z.max m zs = m ∨ foldl Z.max m zs ∈ zs) ∧
  m ≤ foldl Z.max m zs ∧ ∀ z, z ∈ zs → z ≤ foldl Z.max m zs.
Proof.
  revert m. induction zs as [|z zs IH]; intros m; simpl.
  - split_and!; [by left|lia|]. intros z Hz. by apply elem_of_nil in Hz.
  - destruct (IH (Z.max m z)) as (Hin & Hle & Hall). split_and!.
    + destruct Hin as [Hin|Hin]; [|right; by apply list_elem_of_further].
      rewrite Hin. destruct (Z.max_spec m z) as [[_ ->]|[_ ->]];
        [right; apply list_elem_of_here|by left].
    + lia.
    + intros y [->|Hy]%elem_of_cons; [lia|by apply Hall].
Qed.

(** X9: on a non-empty sequence of numbers [max] is the greatest of them. *)
Theorem max_of_numbers (z : Z) (zs : list Z) :
  ∃ m, max (VNumber <$> (z :: zs)) = VNumber m ∧
       m ∈ z :: zs ∧ ∀ y, y ∈ z :: zs → y ≤ m.
Proof.
  exists (foldl Z.max z zs). split; [apply max_loop_numbers_Z|].
  destruct (foldl_max_bound z zs) as (Hin & Hle & Hall). split.
  - destruct Hin as [->|Hin]; [apply list_elem_of_here|by apply list_elem_of_further].
  - intros y [->|Hy]%elem_of_cons; [done|by apply Hall].
Qed.

Lemma max_loop_undefined (rest : list value) :
  Forall (λ v, sortType v ≠ 3) rest →
  max_loop VUndefined false rest = VUndefined.
Proof.
  induction 1 as [|v rest Hv _ IH]; simpl; [done|].
  by destruct v.
Qed.

(** X10: a leading [undefined] wins: nothing is greater than [undefined] by
    [>], so [max] of a sequence of primitives that starts with [undefined] is
    [undefined], whatever follows. *)
Theorem max_leading_undefined (rest : list value) :
  Forall (λ v, sortType v ≠ 3) rest →
  max (VUndefined :: rest) = VUndefined.
Proof. apply max_loop_undefined. Qed.

Lemma max_leading_undefined_witness :
  max [VUndefined; VNumber 5; VString "z"] = VUndefined.
Proof.
  apply (max_leading_undefined [VNumber 5; VString "z"]).
  repeat constructor; discriminate.
Defined.

(** ** [fold], [sum], [product] and [fromDigits] *)

Lemma fold_loop_indexed {T U} (subject iter : list T)
    (fn : U → T → Z → list T → U) (acc : U) (k : nat) :
  fold_loop subject fn acc (Z.of_nat k) iter =
  foldl (λ acc p, fn acc p.2 (Z.of_nat p.1) subject) acc
    (imap (λ i v, ((k + i)%nat, v)) iter).
Proof.
  revert acc k. induction iter as [|x iter IH]; intros acc k; [done|].
  rewrite imap_cons. cbn [fold_loop foldl fst snd]. rewrite Nat.add_0_r.
  replace (Z.of_nat k + 1) with (Z.of_nat (S k)) by lia. rewrite IH.
  by rewrite (imap_ext (λ i v, ((S k + i)%nat, v))
                ((λ i v, ((k + i)%nat, v)) ∘ S) iter)
    by (intros; simpl; f_equal; lia).
Qed.

(** X11: [fold] accumulates from the left, handing [fn] every element with
    its position in the source and the source itself. *)
Theorem fold_left_indexed {T U} (iter : list T) (initialValue : U)
    (fn : U → T → Z → list T → U) :
  fold iter initialValue fn =
  foldl (λ acc p, fn acc p.2 (Z.of_nat p.1) iter) initialValue
    (imap pair iter).
Proof. apply (fold_loop_indexed iter iter fn initialValue 0). Qed.
















(** ** [histogram] *)

Section HistogramFacts.
Context {K : Type} `{!EqDecision K}.
Implicit Types (m hist : list (K * Z)) (iter : list K).

Lemma map_get_set m k v k' :
  map_get (map_set m k v) k' = if decide (k' = k) then Some v else map_get m k'.
Proof.
  induction m as [|[k0 v0] m IH]; simpl.
  - by destruct (decide (k' = k)).
  - destruct (decide (k = k0)) as [->|Hne]; simpl.
    + by destruct (decide (k' = k0)).
    + destruct (decide (k' = k0)) as [->|Hne'].
      * by destruct (decide (k0 = k)) as [->|].
      * apply IH.
Qed.

Lemma map_get_keys m k : is_Some (map_get m k) ↔ k ∈ m.*1.
Proof.
  induction m as [|[k0 v0] m IH]; csimpl.
  - split; [by intros [? ?]|by intros ?%elem_of_nil].
  - rewrite elem_of_cons. destruct (decide (k = k0)) as [->|Hne].
    + split; [by left|eauto].
    + rewrite IH. split; [by right|by intros [?|?]].
Qed.

Lemma map_set_keys m k v :
  (map_set m k v).*1 = if decide (k ∈ m.*1) then m.*1 else m.*1 ++ [k].
Proof.
  induction m as [|[k0 v0] m IH]; csimpl.
  - destruct (decide (k ∈ [])) as [Hin|]; [by apply elem_of_nil in Hin|done].
  - destruct (decide (k = k0)) as [->|Hne]; csimpl.
    + destruct (decide (k0 ∈ k0 :: m.*1)) as [|Hnin]; [done|].
      destruct Hnin. apply list_elem_of_here.
    + rewrite IH. destruct (decide (k ∈ m.*1)) as [Hin|Hnin].
      * destruct (decide (k ∈ k0 :: m.*1)) as [|Hnin']; [done|].
        destruct Hnin'. by apply list_elem_of_further.
      * destruct (decide (k ∈ k0 :: m.*1)) as [Hin'|]; [|done].
        apply elem_of_cons in Hin' as [?|?]; done.
Qed.

Lemma occurrences_elem x iter : 0 ≤ occurrences x iter ∧ (x ∈ iter ↔ 0 < occurrences x iter).
Proof.
  induction iter as [|y iter [IH1 IH2]]; simpl.
  - split; [lia|]. split; [by intros ?%elem_of_nil|lia].
  - rewrite elem_of_cons. destruct (decide (x = y)) as [->|Hne].
    + split; [lia|]. split; [lia|by left].
    + split; [lia|]. rewrite IH2. split; [intros [?|?]; [done|lia]|intros; right; lia].
Qed.

Lemma histogram_loop_get hist iter x :
  map_get (histogram_loop hist iter) x =
  match map_get hist x with
  | Some n => Some (n + occurrences x iter)
  | None => if decide (x ∈ iter) then Some (occurrences x iter) else None
  end.
Proof.
  revert hist. induction iter as [|y iter IH]; intros hist; simpl.
  - destruct (map_get hist x); [f_equal; lia|].
    destruct (decide (x ∈ [])) as [Hin|]; [by apply elem_of_nil in Hin|done].
  - rewrite IH, map_get_set. destruct (decide (x = y)) as [->|Hne].
    + destruct (map_get hist y) as [n|]; simpl; [f_equal; lia|].
      destruct (decide (y ∈ y :: iter)) as [|Hnin]; [f_equal; lia|].
      destruct Hnin. apply list_elem_of_here.
    + destruct (map_get hist x) as [n|]; [f_equal; lia|].
      destruct (decide (x ∈ iter)) as [Hin|Hnin];
        destruct (decide (x ∈ y :: iter)) as [Hin'|Hnin']; try done.
      * destruct Hnin'. by apply list_elem_of_further.
      * apply elem_of_cons in Hin' as [?|?]; done.
Qed.

(** X16: [histogram] maps every element of the source to the number of its
    occurrences, and has no entry for anything else. *)
Theorem histogram_counts iter x :
  map_get (histogram iter) x =
  if decide (x ∈ iter) then Some (occurrences x iter) else None.
Proof. unfold histogram. by rewrite histogram_loop_get. Qed.

Lemma first_seen_ext (s1 s2 : list K) iter :
  (∀ y, y ∈ s1 ↔ y ∈ s2) → first_seen s1 iter = first_seen s2 iter.
Proof.
  revert s1 s2. induction iter as [|x iter IH]; intros s1 s2 Hs; simpl; [done|].
  destruct (decide (x ∈ s1)) as [H1|H1]; destruct (decide (x ∈ s2)) as [H2|H2].
  - by apply IH.
  - destruct H2. by apply Hs.
  - destruct H1. by apply Hs.
  - f_equal. apply IH. intros y. rewrite !elem_of_cons. by rewrite Hs.
Qed.

Lemma first_seen_fresh (s : list K) iter :
  NoDup (first_seen s iter) ∧
  ∀ y, y ∈ first_seen s iter ↔ y ∈ iter ∧ y ∉ s.
Proof.
  revert s. induction iter as [|x iter IH]; intros s; simpl.
  - split; [constructor|]. intros y. rewrite elem_of_nil. tauto.
  - destruct (decide (x ∈ s)) as [Hin|Hnin].
    + destruct (IH s) as [Hnd Hel]. split; [done|].
      intros y. rewrite Hel, elem_of_cons.
      split; [tauto|]. intros [[->|?] ?]; tauto.
    + destruct (IH (x :: s)) as [Hnd Hel]. split.
      * constructor; [|done]. rewrite Hel, elem_of_cons. tauto.
      * intros y. rewrite !elem_of_cons, Hel, elem_of_cons.
        destruct (decide (y = x)) as [->|]; tauto.
Qed.

Lemma histogram_loop_keys hist iter :
  (histogram_loop hist iter).*1 = hist.*1 ++ first_seen hist.*1 iter.
Proof.
  revert hist. induction iter as [|x iter IH]; intros hist; csimpl.
  - by rewrite app_nil_r.
  - rewrite IH, map_set_keys. destruct (decide (x ∈ hist.*1)) as [Hin|Hnin]; [done|].
    rewrite <- (assoc_L (++)). csimpl. do 2 f_equal.
    apply first_seen_ext. intros y.
    rewrite elem_of_app, elem_of_cons, elem_of_cons, elem_of_nil. tauto.
Qed.

(** X17: the keys of [histogram] are the distinct elements of the source, each
    once, in the order of their first occurrences. *)
Theorem histogram_keys iter :
  (histogram iter).*1 = first_seen [] iter ∧
  NoDup (histogram iter).*1 ∧
  ∀ x, x ∈ (histogram iter).*1 ↔ x ∈ iter.
Proof.
  unfold histogram. rewrite histogram_loop_keys. simpl.
  destruct (first_seen_fresh [] iter) as [Hnd Hel].
  split_and!; [done..|]. intros x. rewrite Hel, elem_of_nil. tauto.
Qed.
End HistogramFacts.

(** ** [reversed] *)

Section ReversedFacts.
Context {T : Type} `{!Undefined T}.

Lemma reversed_loop_firstn (arr : list T) (fuel n : nat) :
  (n ≤ length arr → n < fuel →
   reversed_loop fuel arr (Z.of_nat n - 1) = Some (reverse (firstn n arr)))%nat.
Proof.
  revert n. induction fuel as [|fuel IH]; intros n Hn Hfuel; [lia|].
  simpl. destruct n as [|n].
  - done.
  - destruct (Z.leb_spec 0 (Z.of_nat (S n) - 1)); [|lia].
    replace (Z.of_nat (S n) - 1 - 1) with (Z.of_nat n - 1) by lia.
    rewrite IH by lia. simpl.
    replace (Z.to_nat (Z.of_nat (S n) - 1)) with n by lia.
    destruct (lookup_lt_is_Some_2 arr n ltac:(lia)) as [x Hx].
    rewrite (take_S_r _ _ _ Hx), reverse_snoc.
    unfold array_get. by rewrite Hx.
Qed.

Lemma reversed_reverse (iter : list T) (fuel : nat) :
  (length iter < fuel)%nat → reversed_fuel fuel iter = Some (reverse iter).
Proof.
  intros Hfuel. unfold reversed_fuel, toArray.
  rewrite reversed_loop_firstn by lia. by rewrite firstn_all.
Qed.

(** X18: given more fuel than the source has elements, the loop of [reversed]
    ends by its test and yields the source back to front; reversing the
    result gives the source again. *)
Theorem reversed_back_to_front (iter : list T) (fuel : nat) :
  (length iter < fuel)%nat →
  reversed_fuel fuel iter = Some (reverse iter) ∧
  reversed_fuel fuel (reverse iter) = Some iter.
Proof.
  intros Hfuel. split; [by apply reversed_reverse|].
  rewrite reversed_reverse by (by rewrite length_reverse).
  by rewrite reverse_involutive.
Qed.
End ReversedFacts.

Lemma reversed_back_to_front_witness :
  reversed_fuel 4 [VNumber 1; VNumber 2; VNumber 3] =
    Some [VNumber 3; VNumber 2; VNumber 1].
Proof.
  apply (reversed_back_to_front [VNumber 1; VNumber 2; VNumber 3] 4).
  simpl. lia.
Defined.

(** ** [joinStr] *)

Lemma string_app_assoc (s t u : string) : (s +:+ t) +:+ u = s +:+ (t +:+ u).
Proof.
  induction s as [|c s IH]; [done|].
  change (String c ((s +:+ t) +:+ u) = String c (s +:+ (t +:+ u))).
  by rewrite IH.
Qed.

Lemma string_app_nil_r (s : string) : s +:+ "" = s.
Proof.
  induction s as [|c s IH]; [done|].
  change (String c (s +:+ "") = String c s). by rewrite IH.
Qed.

Lemma joinStr_loop_prefix (separator str : string) (iter : list string) :
  joinStr_loop separator str false iter =
  str +:+ joinStr_loop separator "" false iter.
Proof.
  revert str. induction iter as [|s iter IH]; intros str; simpl.
  - by rewrite string_app_nil_r.
  - change ("" +:+ separator) with separator.
    rewrite IH, (IH (separator +:+ s)). by rewrite !string_app_assoc.
Qed.

Lemma joinStr_cons (s : string) (iter : list string) (separator : string) :
  joinStr (s :: iter) separator =
  match iter with
  | [] => s
  | _ => s +:+ separator +:+ joinStr iter separator
  end.
Proof.
  unfold joinStr. simpl. change ("" +:+ s) with s.
  rewrite joinStr_loop_prefix.
  destruct iter as [|t iter]; simpl; [apply string_app_nil_r|].
  change ("" +:+ separator) with separator. change ("" +:+ t) with t.
  rewrite (joinStr_loop_prefix _ (separator +:+ t)), (joinStr_loop_prefix _ t).
  by rewrite !string_app_assoc.
Qed.

Lemma joinStr_concat (iter : list string) (separator : string) :
  joinStr iter separator = String.concat separator iter.
Proof.
  induction iter as [|s iter IH]; [done|].
  rewrite joinStr_cons, IH. by destruct iter.
Qed.

(** X19: [joinStr] puts the separator between consecutive elements and
    nowhere else: the empty sequence joins to the empty string, a single
    element to itself, and two non-empty sequences one after the other join
    to their joins with one separator in between. *)
Theorem joinStr_separates (a b : list string) (separator : string) :
  joinStr [] separator = "" ∧
  (∀ s, joinStr [s] separator = s) ∧
  joinStr a separator = String.concat separator a ∧
  (a ≠ [] → b ≠ [] →
   joinStr (a ++ b) separator =
     joinStr a separator +:+ separator +:+ joinStr b separator).
Proof.
  split_and!; [done|intros s; by rewrite joinStr_cons|apply joinStr_concat|].
  intros Ha Hb. induction a as [|s a IH]; [done|].
  cbn [app]. rewrite !joinStr_cons.
  destruct a as [|t a].
  - simpl. by destruct b.
  - rewrite IH by done. cbn [app]. by rewrite !string_app_assoc.
Qed.

Lemma joinStr_separates_witness :
  joinStr (["a"; "b"] ++ ["c"]) ", " =
  joinStr ["a"; "b"] ", " +:+ ", " +:+ joinStr ["c"] ", ".
Proof. apply (joinStr_separates ["a"; "b"] ["c"] ", "); discriminate. Defined.

(** ** [sliced] with an end *)

Section SlicedFacts.
Context {T : Type} `{!Undefined T}.

Lemma takeExceptLast_firstn (iter : list T) (num : Z) :
  takeExceptLast iter num = firstn (length iter - Z.to_nat num) iter.
Proof.
  unfold takeExceptLast. destruct (Z.leb_spec num 0) as [Hnum|Hnum].
  - replace (Z.to_nat num) with 0%nat by lia.
    by rewrite Nat.sub_0_r, firstn_all.
  - destruct (takeExceptLast_run (Z.to_nat num) ltac:(lia) iter)
      as (s & _ & _ & Hout).
    rewrite Z2Nat.id in Hout by lia.
    unfold genIt. rewrite traverse_pulled, Hout.
    destruct (state_after _ _); simpl; by rewrite app_nil_r.
Qed.

(** X20: with a non-negative [start], [sliced] is the slice from [start] up
    to [end]: the end of the source when [end] is omitted, position [end]
    when it is non-negative, and [-end] elements before the end of the source
    when it is negative. *)
Theorem sliced_from_start (iter : list T) (start : Z) (end_ : option Z) :
  0 ≤ start →
  sliced iter start end_ =
  skipn (Z.to_nat start)
    (firstn (match end_ with
             | None => length iter
             | Some e =>
                 if e <? 0 then Z.to_nat (Z.of_nat (length iter) + e)
                 else Z.to_nat e
             end) iter).
Proof.
  intros Hstart. unfold sliced.
  assert ((if 0 <? start then drop iter start
           else if start <? 0 then drop iter (count iter None + start)
           else iter) = skipn (Z.to_nat start) iter) as ->.
  { destruct (Z.ltb_spec 0 start); [apply drop_skipn|].
    destruct (Z.ltb_spec start 0); [lia|].
    by replace (Z.to_nat start) with 0%nat by lia. }
  destruct end_ as [e|]; [|by rewrite firstn_all].
  destruct (Z.ltb_spec e 0).
  - rewrite takeExceptLast_firstn, length_drop, take_drop_commute.
    destruct (Z.le_gt_cases start (Z.of_nat (length iter) + e)).
    + do 2 f_equal. lia.
    + rewrite !(drop_ge (firstn _ _)); [done|..]; rewrite length_take; lia.
  - rewrite take_firstn, take_drop_commute.
    destruct (Z.le_gt_cases start e).
    + do 2 f_equal. lia.
    + rewrite !(drop_ge (firstn _ _)); [done|..]; rewrite length_take; lia.
Qed.

(** X21: with a negative [start] and a non-negative [end], [end] has no
    effect: the count handed to [take] is [end - start], which is at least
    the number of elements left after the drop. *)
Theorem sliced_negative_start_ignores_end (iter : list T) (start e : Z) :
  start < 0 → 0 ≤ e →
  sliced iter start (Some e) = sliced iter start None.
Proof.
  intros Hstart He. unfold sliced.
  destruct (Z.ltb_spec 0 start); [lia|].
  destruct (Z.ltb_spec start 0); [|lia].
  destruct (Z.ltb_spec e 0); [lia|].
  rewrite take_firstn, drop_skipn, count_length.
  apply take_ge. rewrite length_drop. lia.
Qed.
End SlicedFacts.

Lemma sliced_from_start_witness :
  sliced [VNumber 1; VNumber 2; VNumber 3; VNumber 4; VNumber 5] 1 (Some (-1)) =
  [VNumber 2; VNumber 3; VNumber 4].
Proof.
  apply (sliced_from_start
           [VNumber 1; VNumber 2; VNumber 3; VNumber 4; VNumber 5] 1 (Some (-1))).
  lia.
Defined.

Lemma sliced_negative_start_ignores_end_witness :
  sliced [VNumber 1; VNumber 2; VNumber 3; VNumber 4; VNumber 5] (-3) (Some 4) =
  [VNumber 3; VNumber 4; VNumber 5].
Proof.
  apply (sliced_negative_start_ignores_end
           [VNumber 1; VNumber 2; VNumber 3; VNumber 4; VNumber 5] (-3) 4); lia.
Defined.

(** ** Chunks and windows of a positive or negative width *)

Section ChunkFacts.
Context {T : Type}.
Implicit Types (σ : list (list T)) (pre iter : list T).

Lemma deref_alloc_at σ (a : list T) n : n = length σ → deref (σ ++ [a]) n = a.
Proof. intros ->. apply deref_alloc. Qed.

Lemma slicesOf_body_fill size σ0 σ temp (x : T) :
  (temp < length σ)%nat → Z.of_nat (length (deref σ temp)) < size →
  body (slicesOf_recipe size σ0) (σ, temp) x =
  if Z.of_nat (S (length (deref σ temp))) =? size
  then ([{| backing := temp; seen := deref σ temp ++ [x] |}],
        Some (<[temp:=deref σ temp ++ [x]]> σ ++ [[]], length σ))
  else ([], Some (<[temp:=deref σ temp ++ [x]]> σ, temp)).
Proof.
  intros Htemp Hlen. cbn [body slicesOf_recipe].
  destruct (Z.ltb_spec (Z.of_nat (length (deref σ temp))) size); [|lia].
  unfold array_push, new_It, alloc. rewrite deref_insert by done.
  rewrite length_app, length_insert. cbn [length]. by rewrite Nat.add_1_r.
Qed.

Lemma slicesOf_chunks_run size σ0 pre :
  0 < size →
  ∃ σ temp,
    state_after (slicesOf_recipe size σ0) pre = Some (σ, temp) ∧
    (temp < length σ)%nat ∧
    Z.of_nat (length (deref σ temp)) < size ∧
    concat (seen <$> pulled (slicesOf_recipe size σ0) pre) ++ deref σ temp
      = pre ∧
    Forall (λ ch, Z.of_nat (length ch) = size)
      (seen <$> pulled (slicesOf_recipe size σ0) pre).
Proof.
  intros Hsize.
  induction pre as [|x pre (σ & temp & Hs & Htemp & Hlen & Hcat & Hfull)]
    using rev_ind.
  - exists (σ0 ++ [[]]), (length σ0). unfold pulled. simpl.
    rewrite deref_alloc. split_and!; [done| |simpl; lia|done|constructor].
    rewrite length_app. simpl. lia.
  - rewrite state_after_snoc, pulled_snoc, Hs. cbn [mbind option_bind].
    rewrite slicesOf_body_fill by done.
    destruct (Z.eqb_spec (Z.of_nat (S (length (deref σ temp)))) size) as [Heq|Hne];
      cbn [fst snd].
    + eexists _, _. split_and!; [done|..].
      * rewrite length_app, length_insert. simpl. lia.
      * rewrite deref_alloc_at by (by rewrite length_insert). simpl. lia.
      * rewrite deref_alloc_at by (by rewrite length_insert).
        rewrite app_nil_r, fmap_app, concat_app.
        simpl. rewrite app_nil_r, (assoc_L (++)). by rewrite Hcat.
      * rewrite fmap_app. apply Forall_app. split; [done|].
        constructor; [|done]. simpl. rewrite length_app. simpl. lia.
    + eexists _, _. split_and!; [done|..].
      * by rewrite length_insert.
      * rewrite deref_insert by done. rewrite length_app. simpl. lia.
      * rewrite deref_insert, app_nil_r, (assoc_L (++)) by done. by rewrite Hcat.
      * by rewrite app_nil_r.
Qed.

(** X22: with a positive [size], the chunks of [slicesOf] put end to end are
    the source; no chunk is empty or longer than [size], and every chunk but
    the last has exactly [size] elements. *)
Theorem slicesOf_partitions size σ0 iter :
  0 < size →
  let chunks := seen <$> slicesOf iter size σ0 in
  concat chunks = iter ∧
  Forall (λ ch, (0 < length ch)%nat ∧ Z.of_nat (length ch) ≤ size) chunks ∧
  ∀ (i : nat) ch,
    chunks !! i = Some ch → (S i < length chunks)%nat →
    Z.of_nat (length ch) = size.
Proof.
  intros Hsize chunks. unfold chunks, slicesOf, genIt.
  destruct (slicesOf_chunks_run size σ0 iter Hsize)
    as (σ & temp & Hs & Htemp & Hlen & Hcat & Hfull).
  rewrite traverse_pulled, Hs. simpl epilogue.
  set (full := seen <$> pulled (slicesOf_recipe size σ0) iter) in *.
  destruct (Z.eqb_spec size 0); [lia|]. rewrite orb_false_r.
  rewrite fmap_app.
  destruct (Z.ltb_spec 0 (Z.of_nat (length (deref σ temp)))) as [Hcur|Hcur].
  - simpl. split_and!.
    + rewrite concat_app. simpl. by rewrite app_nil_r.
    + apply Forall_app. split.
      * eapply Forall_impl; [exact Hfull|]. simpl. intros; lia.
      * constructor; [|done]. lia.
    + intros i ch Hch Hi. rewrite length_app in Hi. simpl in Hi.
      rewrite lookup_app_l in Hch by lia.
      rewrite Forall_forall in Hfull. apply Hfull.
      by eapply list_elem_of_lookup_2.
  - simpl. rewrite app_nil_r.
    assert (deref σ temp = []) as Hnil by (destruct (deref σ temp); [done|simpl in Hcur; lia]).
    rewrite Hnil, app_nil_r in Hcat. split_and!; [done| |].
    + eapply Forall_impl; [exact Hfull|]. simpl. intros; lia.
    + intros i ch Hch _. rewrite Forall_forall in Hfull. apply Hfull.
      by eapply list_elem_of_lookup_2.
Qed.

Lemma slicesOf_negative_run size σ0 pre :
  size < 0 →
  ∃ σ temp,
    state_after (slicesOf_recipe size σ0) pre = Some (σ, temp) ∧
    deref σ temp = [] ∧ pulled (slicesOf_recipe size σ0) pre = [].
Proof.
  intros Hsize.
  induction pre as [|x pre (σ & temp & Hs & Hnil & Hp)] using rev_ind.
  - eexists _, _. split_and!; [done| |done]. simpl. apply deref_alloc.
  - exists σ, temp. rewrite state_after_snoc, pulled_snoc, Hs, Hp.
    cbn [mbind option_bind].
    assert (body (slicesOf_recipe size σ0) (σ, temp) x = ([], Some (σ, temp)))
      as ->; [|done].
    cbn [body slicesOf_recipe]. rewrite Hnil. cbn [length].
    destruct (Z.ltb_spec (Z.of_nat 0) size); [lia|]. rewrite Hnil. cbn [length].
    by destruct (Z.eqb_spec (Z.of_nat 0) size); [lia|].
Qed.

Lemma slicesOfOverlapping_negative_run size σ0 pre :
  size < 0 →
  ∃ σ,
    state_after (slicesOfOverlapping_recipe size σ0) pre =
      Some (σ, length σ0) ∧
    (length σ0 < length σ)%nat ∧
    deref σ (length σ0) = [] ∧
    pulled (slicesOfOverlapping_recipe size σ0) pre = [].
Proof.
  intros Hsize.
  induction pre as [|x pre (σ & Hs & Hlen & Hnil & Hp)] using rev_ind.
  - exists (σ0 ++ [[]]). unfold state_after, pulled. simpl.
    destruct (Z.eqb_spec size 0); [lia|]. simpl.
    split_and!; [done| |apply deref_alloc|done].
    rewrite length_app. simpl. lia.
  - exists (<[length σ0:=[]]> (<[length σ0:=[x]]> σ)).
    rewrite state_after_snoc, pulled_snoc, Hs, Hp. cbn [mbind option_bind].
    assert (body (slicesOfOverlapping_recipe size σ0) (σ, length σ0) x =
            ([], Some (<[length σ0:=[]]> (<[length σ0:=[x]]> σ), length σ0)))
      as ->.
    { cbn [body slicesOfOverlapping_recipe].
      unfold array_push, array_shift. rewrite Hnil. cbn [app].
      rewrite !deref_insert by (by rewrite ?length_insert). cbn [length].
      destruct (Z.ltb_spec size (Z.of_nat 1)); [|lia].
      rewrite !deref_insert by (by rewrite ?length_insert). cbn [tail length].
      by destruct (Z.eqb_spec (Z.of_nat 0) size); [lia|]. }
    cbn [fst snd]. split_and!; [done| | |done].
    + by rewrite !length_insert.
    + by rewrite deref_insert by (by rewrite length_insert).
Qed.

(** X23: with a negative [size] neither [slicesOf] nor [slicesOfOverlapping]
    yields anything, whatever the source holds. *)
Theorem negative_size_yields_nothing size σ0 iter :
  size < 0 →
  slicesOf iter size σ0 = [] ∧ slicesOfOverlapping iter size σ0 = [].
Proof.
  intros Hsize. unfold slicesOf, slicesOfOverlapping, genIt. split.
  - destruct (slicesOf_negative_run size σ0 iter Hsize)
      as (σ & temp & Hs & Hnil & Hp).
    rewrite traverse_pulled, Hs, Hp. simpl. rewrite Hnil. simpl.
    by destruct (Z.eqb_spec size 0); [lia|].
  - destruct (slicesOfOverlapping_negative_run size σ0 iter Hsize)
      as (σ & Hs & _ & _ & Hp).
    by rewrite traverse_pulled, Hs, Hp.
Qed.
End ChunkFacts.

Lemma slicesOf_partitions_witness :
  concat (seen <$> slicesOf [VNumber 1; VNumber 2; VNumber 3] 2 []) =
  [VNumber 1; VNumber 2; VNumber 3].
Proof.
  apply (slicesOf_partitions 2 [] [VNumber 1; VNumber 2; VNumber 3]). lia.
Defined.

Lemma negative_size_yields_nothing_witness :
  slicesOf [VNumber 1; VNumber 2] (-1) [] = [] ∧
  slicesOfOverlapping [VNumber 1; VNumber 2] (-1) [] = [].
Proof.
  apply (negative_size_yields_nothing (-1) [] [VNumber 1; VNumber 2]). lia.
Defined.

(** ** Sliding windows of a positive width *)

Section WindowFacts.
Context {T : Type}.
Implicit Types (σ : list (list T)) (pre iter cur : list T).

Lemma tail_skipn_snoc pre (x : T) (m : nat) :
  (m < length pre)%nat →
  tail (skipn m pre ++ [x]) = skipn (S m) (pre ++ [x]).
Proof.
  intros Hm. rewrite (drop_app_le pre [x] (S m)) by lia.
  destruct (skipn m pre) as [|y rest] eqn:Hdrop.
  - pose proof (length_drop pre m) as Hlen. rewrite Hdrop in Hlen.
    simpl in Hlen. lia.
  - simpl. f_equal.
    change rest with (skipn 1 (y :: rest)). rewrite <- Hdrop.
    rewrite drop_drop. f_equal. lia.
Qed.

Lemma slicesOfOverlapping_body size σ0 σ temp (x : T) :
  (temp < length σ)%nat →
  let cur := deref σ temp in
  let cur' := if size <? Z.of_nat (S (length cur))
              then tail (cur ++ [x]) else cur ++ [x] in
  body (slicesOfOverlapping_recipe size σ0) (σ, temp) x =
  if Z.of_nat (length cur') =? size
  then ([{| backing := length σ; seen := cur' |}],
        Some (<[temp:=cur']> σ ++ [cur'], temp))
  else ([], Some (<[temp:=cur']> σ, temp)).
Proof.
  intros Htemp cur cur'. cbn [body slicesOfOverlapping_recipe].
  unfold array_push, array_shift, new_It, alloc.
  rewrite deref_insert by done. fold cur.
  rewrite length_app. cbn [length]. rewrite Nat.add_1_r.
  assert ((if size <? Z.of_nat (S (length cur))
           then <[temp:=tail (cur ++ [x])]> (<[temp:=cur ++ [x]]> σ)
           else <[temp:=cur ++ [x]]> σ) = <[temp:=cur']> σ) as ->.
  { unfold cur'. destruct (size <? _); [|done].
    by rewrite list_insert_insert_eq. }
  rewrite deref_insert by done.
  destruct (Z.of_nat (length cur') =? size); [|done].
  rewrite deref_alloc_at by done. by rewrite length_insert.
Qed.

Lemma windows_snoc pre (x : T) (n m : nat) :
  (m + n ≤ S (length pre))%nat →
  (λ i, firstn n (skipn i (pre ++ [x]))) <$> seq 0 m =
  (λ i, firstn n (skipn i pre)) <$> seq 0 m.
Proof.
  intros Hm. apply list_fmap_ext. intros j i Hi.
  apply lookup_seq in Hi as [-> Hj]. simpl.
  rewrite (drop_app_le pre [x] j) by lia.
  apply take_app_le. rewrite length_drop. lia.
Qed.

Lemma slicesOfOverlapping_windows_run size σ0 pre :
  0 < size →
  ∃ σ,
    state_after (slicesOfOverlapping_recipe size σ0) pre =
      Some (σ, length σ0) ∧
    (length σ0 < length σ)%nat ∧
    deref σ (length σ0) = skipn (length pre - Z.to_nat size) pre ∧
    seen <$> pulled (slicesOfOverlapping_recipe size σ0) pre =
      (λ i, firstn (Z.to_nat size) (skipn i pre))
        <$> seq 0 (length pre + 1 - Z.to_nat size).
Proof.
  intros Hsize. set (n := Z.to_nat size).
  induction pre as [|x pre (σ & Hs & Hlen & Hcur & Hout)] using rev_ind.
  - exists (σ0 ++ [[]]). unfold state_after, pulled. simpl.
    destruct (Z.eqb_spec size 0); [lia|]. simpl.
    split_and!; [done| |apply deref_alloc|].
    + rewrite length_app. simpl. lia.
    + by replace (1 - n)%nat with 0%nat by lia.
  - rewrite state_after_snoc, pulled_snoc, Hs. cbn [mbind option_bind].
    rewrite slicesOfOverlapping_body by done. rewrite Hcur.
    rewrite length_drop, length_app. cbn [length].
    set (k := length pre) in *.
    assert ((if size <? Z.of_nat (S (k - (k - n)))
             then tail (skipn (k - n) pre ++ [x])
             else skipn (k - n) pre ++ [x]) =
            skipn (k + 1 - n) (pre ++ [x])) as ->.
    { destruct (Z.ltb_spec size (Z.of_nat (S (k - (k - n))))).
      - rewrite tail_skipn_snoc by lia. f_equal. lia.
      - replace (k - n)%nat with 0%nat by lia.
        by replace (k + 1 - n)%nat with 0%nat by lia. }
    rewrite length_drop, length_app. cbn [length]. fold k.
    destruct (Z.eqb_spec (Z.of_nat (k + 1 - (k + 1 - n))) size) as [Heq|Hne];
      cbn [fst snd].
    + eexists. split_and!; [done|..].
      * rewrite length_app, length_insert. lia.
      * unfold deref. rewrite lookup_app_l by (rewrite length_insert; lia).
        by rewrite list_lookup_insert_eq by lia.
      * rewrite fmap_app, Hout. simpl.
        replace (k + 1 + 1 - n)%nat with (S (k + 1 - n)) by lia.
        rewrite seq_S, fmap_app. simpl. f_equal.
        -- symmetry. apply windows_snoc. fold k. lia.
        -- f_equal. symmetry. apply take_ge.
           rewrite length_drop, length_app. simpl. fold k. lia.
    + eexists. split_and!; [done|..].
      * by rewrite length_insert.
      * by rewrite deref_insert by lia.
      * rewrite app_nil_r, Hout.
        replace (k + 1 + 1 - n)%nat with 0%nat by lia.
        by replace (k + 1 - n)%nat with 0%nat by lia.
Qed.

(** X24: with a positive [size], [slicesOfOverlapping] yields the runs of
    [size] consecutive elements of the source, one for every offset from [0]
    to [length - size], in that order, and nothing when the source is shorter
    than [size]. *)
Theorem slicesOfOverlapping_windows size σ0 iter :
  0 < size →
  seen <$> slicesOfOverlapping iter size σ0 =
  (λ i, firstn (Z.to_nat size) (skipn i iter))
    <$> seq 0 (length iter + 1 - Z.to_nat size).
Proof.
  intros Hsize. unfold slicesOfOverlapping, genIt.
  destruct (slicesOfOverlapping_windows_run size σ0 iter Hsize)
    as (σ & Hs & _ & _ & Hout).
  rewrite traverse_pulled, Hs. simpl epilogue. by rewrite app_nil_r.
Qed.
End WindowFacts.

Lemma slicesOfOverlapping_windows_witness :
  seen <$> slicesOfOverlapping [VNumber 1; VNumber 2; VNumber 3] 2 [] =
  [[VNumber 1; VNumber 2]; [VNumber 2; VNumber 3]].
Proof.
  apply (slicesOfOverlapping_windows 2 [] [VNumber 1; VNumber 2; VNumber 3]).
  lia.
Defined.

(** ** [sorted] on sorted input and with a key *)

Lemma array_sort_sorted_id (l : list value) :
  StronglySorted comes_before l → array_sort defaultComparator l = l.
Proof.
  induction 1 as [|x l Hl IH Hx]; simpl; [done|].
  rewrite IH. destruct Hx as [|y l Hxy _]; simpl; [done|].
  apply sort_compare_default in Hxy.
  by destruct (Z.leb_spec (sort_compare defaultComparator x y) 0); [|lia].
Qed.

(** X25: [sorted] under the default comparator leaves an input alone that is
    already in order, so sorting twice is sorting once. *)
Theorem sorted_idempotent (iter : list value) :
  sorted (sorted iter) = sorted iter ∧
  (StronglySorted (λ a b, defaultComparator a b ≤ 0) iter → sorted iter = iter).
Proof.
  rewrite !sorted_array_sort. split.
  - apply array_sort_sorted_id, array_sort_sorted.
  - apply array_sort_sorted_id.
Qed.

Lemma sorted_idempotent_witness :
  sorted [VBoolean false; VNumber 3; VString "a"; VNull] =
  [VBoolean false; VNumber 3; VString "a"; VNull].
Proof.
  apply (sorted_idempotent [VBoolean false; VNumber 3; VString "a"; VNull]).
  repeat (constructor; [|repeat constructor; vm_compute; discriminate]).
  constructor.
Defined.

Lemma key_before_total by_ a b : key_before by_ a b ∨ key_before by_ b a.
Proof.
  unfold key_before.
  destruct (comes_before_total (by_ a) (by_ b)) as [H|H]; unfold comes_before in H;
    destruct a, b; simpl; try (left; lia); try (right; lia);
    (by left) || (by right).
Qed.

Lemma key_before_trans by_ a b c :
  key_before by_ a b → key_before by_ b c → key_before by_ a c.
Proof.
  unfold key_before. intros H1 H2.
  destruct a, b, c; simpl in *; try lia;
    exact (comes_before_trans _ _ _ H1 H2).
Qed.

Lemma sort_insert_key_sorted by_ x l :
  StronglySorted (key_before by_) l →
  StronglySorted (key_before by_)
    (sort_insert (λ a b, defaultComparator (by_ a) (by_ b)) x l).
Proof.
  induction 1 as [|y l Hl IH Hy]; simpl.
  - repeat constructor.
  - destruct (Z.leb_spec
      (sort_compare (λ a b, defaultComparator (by_ a) (by_ b)) x y) 0)
      as [Hxy|Hxy].
    + constructor; [by constructor|].
      constructor; [done|].
      eapply Forall_impl; [exact Hy|]. intros z Hz.
      by apply (key_before_trans by_ x y z).
    + constructor; [done|].
      assert (key_before by_ y x) as Hyx.
      { destruct (key_before_total by_ x y) as [H|H]; [|done].
        unfold key_before in H. lia. }
      rewrite sort_insert_perm. by constructor.
Qed.

(** X26: [sorted] with a key function and the default comparator permutes its
    input into the order of the keys, except that the host puts elements that
    are themselves [undefined] last without asking for their keys. *)
Theorem sorted_by_key (iter : list value) (by_ : value → value) :
  sorted_by iter by_ defaultComparator ≡ₚ iter ∧
  StronglySorted (key_before by_) (sorted_by iter by_ defaultComparator) ∧
  ∀ a b, a ≠ VUndefined → b ≠ VUndefined →
         (key_before by_ a b ↔ defaultComparator (by_ a) (by_ b) ≤ 0) ∧
         key_before by_ a VUndefined ∧ ¬ key_before by_ VUndefined a.
Proof.
  assert (sorted_by iter by_ defaultComparator =
          array_sort (λ a b, defaultComparator (by_ a) (by_ b)) iter) as ->.
  { unfold sorted_by, genIt, traverse, toArray. simpl.
    induction (array_sort _ iter) as [|x l IH]; simpl; [done|]. by rewrite IH. }
  split_and!.
  - apply array_sort_perm.
  - induction iter as [|x iter IH]; simpl; [constructor|].
    by apply sort_insert_key_sorted.
  - intros a b Ha Hb. unfold key_before. split_and!.
    + by destruct a, b.
    + by destruct a.
    + by destruct a; simpl; try lia.
Qed.

Lemma sorted_by_key_witness :
  key_before (λ _, VNumber 0) (VNumber 7) VUndefined ∧
  ¬ key_before (λ _, VNumber 0) VUndefined (VNumber 7).
Proof.
  destruct (sorted_by_key [VUndefined; VNumber 7] (λ _, VNumber 0))
    as (_ & _ & H).
  destruct (H (VNumber 7) (VNumber 7)) as (_ & H1 & H2); [discriminate..|].
  split; [exact H1|exact H2].
Defined.

(** ** Transposing twice *)

Section TransposeTwice.
Context {T : Type} `{!Undefined T}.
Implicit Types (rows cols : list (list T)).

Lemma transpose_fuel_columns rows (fuel : nat) :
  (max_list (length <$> rows) < fuel)%nat →
  transpose_fuel fuel rows =
  Some ((λ x : nat, (λ row, nth row (Z.of_nat x)) <$> rows)
          <$> seq 0 (max_list (length <$> rows))).
Proof.
  intros Hfuel. unfold transpose_fuel.
  rewrite transpose_width_rows. destruct rows as [|row rows].
  - destruct fuel; [lia|]. done.
  - pose proof (transpose_loop_counted (row :: rows)
                  (max_list (length <$> row :: rows)) fuel 0) as H.
    rewrite Nat.sub_0_r in H. apply H; lia.
Qed.

Lemma max_list_constant (ns : list nat) (w : nat) :
  ns ≠ [] → Forall (λ n, n = w) ns → max_list ns = w.
Proof.
  intros Hne Hall. destruct Hall as [|n ns -> Hall]; [done|]. clear Hne.
  simpl. induction Hall as [|m ns -> _ IH]; simpl; lia.
Qed.

Lemma fmap_lookup_seq (row : list T) :
  (λ x : nat, default undefined (row !! x)) <$> seq 0 (length row) = row.
Proof.
  apply list_eq. intros i. rewrite list_lookup_fmap.
  destruct (decide (i < length row)%nat) as [Hi|Hi].
  - rewrite lookup_seq_lt by done. simpl.
    by destruct (lookup_lt_is_Some_2 row i Hi) as [x ->].
  - rewrite lookup_seq_ge by lia. symmetry. apply lookup_ge_None. lia.
Qed.

(** X27: on a matrix with at least one row and rows of one positive length,
    [transpose] gives as many rows as the matrix has columns, each as long as
    the matrix has rows, and transposing the result gives the matrix back. *)
Theorem transpose_twice rows (w fuel : nat) :
  rows ≠ [] → (0 < w)%nat → Forall (λ row, length row = w) rows →
  (w < fuel)%nat → (length rows < fuel)%nat →
  ∃ cols,
    transpose_fuel fuel rows = Some cols ∧
    length cols = w ∧ Forall (λ col, length col = length rows) cols ∧
    transpose_fuel fuel cols = Some rows.
Proof.
  intros Hne Hw Hrows Hfuel1 Hfuel2.
  assert (max_list (length <$> rows) = w) as Hwidth.
  { apply max_list_constant; [by destruct rows|]. by apply Forall_fmap. }
  set (cols := (λ x : nat, (λ row, nth row (Z.of_nat x)) <$> rows) <$> seq 0 w).
  assert (Forall (λ col, length col = length rows) cols) as Hcols.
  { unfold cols. apply Forall_fmap, Forall_forall. intros x _. simpl.
    by rewrite length_fmap. }
  assert (length cols = w) as Hlen
    by (unfold cols; by rewrite length_fmap, length_seq).
  exists cols. split_and!; [|done..|].
  - rewrite transpose_fuel_columns by lia. by rewrite Hwidth.
  - assert (max_list (length <$> cols) = length rows) as Hwidth'.
    { apply max_list_constant; [destruct cols; [simpl in Hlen; lia|done]|].
      by apply Forall_fmap. }
    rewrite transpose_fuel_columns by lia. rewrite Hwidth'. f_equal.
    apply list_eq. intros y. rewrite list_lookup_fmap.
    destruct (decide (y < length rows)%nat) as [Hy|Hy].
    + rewrite lookup_seq_lt by done. simpl.
      destruct (lookup_lt_is_Some_2 rows y Hy) as [row Hrow]. rewrite Hrow.
      f_equal. unfold cols. rewrite <- list_fmap_compose.
      rewrite Forall_forall in Hrows.
      rewrite <- (fmap_lookup_seq row),
        (Hrows row (list_elem_of_lookup_2 _ _ _ Hrow)).
      apply list_fmap_ext. intros j x _. simpl.
      rewrite !nth_array_get. unfold array_get at 1.
      rewrite list_lookup_fmap, Hrow. simpl.
      rewrite nth_array_get. by unfold array_get.
    + rewrite lookup_seq_ge by lia. symmetry. apply lookup_ge_None. lia.
Qed.
End TransposeTwice.

Lemma transpose_twice_witness :
  ∃ cols,
    transpose_fuel 4
      [[VNumber 1; VNumber 2; VNumber 3]; [VNumber 4; VNumber 5; VNumber 6]] =
      Some cols ∧
    transpose_fuel 4 cols =
      Some [[VNumber 1; VNumber 2; VNumber 3];
            [VNumber 4; VNumber 5; VNumber 6]].
Proof.
  destruct (transpose_twice
    [[VNumber 1; VNumber 2; VNumber 3]; [VNumber 4; VNumber 5; VNumber 6]]
    3 4) as (cols & H1 & _ & _ & H2);
    [discriminate|lia|repeat constructor|lia|simpl; lia|].
  exists cols. split; [exact H1|exact H2].
Defined.

(** ** More on [permutations] *)

Section PermutationsMore.
Context {T : Type} `{!Undefined T}.
Implicit Types (σ : list (list T)) (a iter : list T) (c : list nat).

Lemma last_cons_default (l : list (list T)) (x d : list T) :
  List.last (x :: l) d = List.last l x.
Proof.
  revert x d. induction l as [|y l IH]; intros x d; [done|].
  change (List.last (x :: y :: l) d) with (List.last (y :: l) d).
  by rewrite !IH.
Qed.

Lemma swap_loop_chain fuel a c i out a' :
  swap_loop fuel a c i = Some (out, a') →
  one_swap_apart a out ∧ a' = List.last out a.
Proof.
  revert a c i out a'. induction fuel as [|fuel IH]; intros a c i out a'; [done|].
  cbn [swap_loop].
  destruct (Nat.ltb_spec i (length a)) as [Hi|Hi]; [|by intros [= <- <-]].
  destruct (Nat.ltb_spec (c !!! i) i) as [Hc|Hc]; [|apply IH].
  set (j := if Nat.even i then 0%nat else c !!! i).
  assert (j < i)%nat as Hj by (unfold j; destruct (Nat.even i); lia).
  destruct (swap_loop fuel (swap a j i) _ 0) as [[out1 a1]|] eqn:Hrec; [|done].
  simpl. intros [= <- <-]. destruct (IH _ _ _ _ _ Hrec) as [Hchain ->].
  split.
  - simpl. split; [|done]. exists j, i. split; [lia|done].
  - by rewrite last_cons_default.
Qed.

Lemma permutations_run iter σ0 (fuel : nat) :
  (swap_steps (length iter) < fuel)%nat →
  permutations_fuel fuel iter σ0 =
  Some (Window (length σ0) <$> iter :: (swap_level (length iter) iter).1,
        <[length σ0:=(swap_level (length iter) iter).2]> (σ0 ++ [iter])) ∧
  swap_loop fuel iter (replicate (length iter) 0%nat) 0 =
  Some ((swap_level (length iter) iter).1, (swap_level (length iter) iter).2).
Proof.
  intros Hfuel. split; [|by apply swap_loop_complete].
  unfold permutations_fuel, alloc, toArray, new_It.
  rewrite !deref_alloc.
  rewrite permutations_loop_contents by (rewrite length_app; simpl; lia).
  by rewrite deref_alloc, swap_loop_complete by done.
Qed.

(** X28: every array [permutations] yields after the first comes from the
    one before it by one swap of two different positions. *)
Theorem permutations_one_swap_apart iter σ0 (fuel : nat) :
  (swap_steps (length iter) < fuel)%nat →
  ∃ ws σ out,
    permutations_fuel fuel iter σ0 = Some (ws, σ) ∧
    seen <$> ws = iter :: out ∧ one_swap_apart iter out.
Proof.
  intros Hfuel. destruct (permutations_run iter σ0 fuel Hfuel) as [Hrun Hloop].
  eexists _, _, _. split; [exact Hrun|].
  rewrite seen_windows. split; [done|].
  by destruct (swap_loop_chain _ _ _ _ _ _ Hloop).
Qed.

(** X29: all windows of [permutations] are views of one array, which at the
    end of the traversal holds the last permutation: read after the traversal,
    every window shows the last snapshot. *)
Theorem permutations_windows_read_last iter σ0 (fuel : nat) :
  (swap_steps (length iter) < fuel)%nat →
  ∃ ws σ,
    permutations_fuel fuel iter σ0 = Some (ws, σ) ∧
    ∀ w, w ∈ ws → deref σ (backing w) = List.last (seen <$> ws) iter.
Proof.
  intros Hfuel. destruct (permutations_run iter σ0 fuel Hfuel) as [Hrun Hloop].
  eexists _, _. split; [exact Hrun|].
  destruct (swap_loop_chain _ _ _ _ _ _ Hloop) as [_ Hlast].
  intros w Hw.
  assert (backing w = length σ0) as ->.
  { apply list_elem_of_fmap in Hw as (x & -> & _). done. }
  rewrite deref_insert by (rewrite length_app; simpl; lia).
  rewrite seen_windows, Hlast.
  by rewrite last_cons_default.
Qed.

Lemma length_interleave (x : T) (l : list T) :
  length (interleave x l) = S (length l).
Proof.
  induction l as [|y l IH]; simpl; [done|]. by rewrite length_fmap, IH.
Qed.

Lemma length_all_permutations (l : list T) :
  length (permutations l) = fact (length l).
Proof.
  induction l as [|x l IH]; [done|].
  cbn [permutations length fact].
  assert (∀ ps : list (list T),
    Forall (λ p, length p = length l) ps →
    length (ps ≫= interleave x) = (S (length l) * length ps)%nat) as Hbind.
  { induction 1 as [|p ps Hp _ IHps]; [simpl; lia|].
    rewrite bind_cons, length_app, IHps, length_interleave, Hp. simpl. lia. }
  rewrite Hbind, IH; [done|].
  apply Forall_forall. intros p Hp.
  apply permutations_Permutation in Hp. by rewrite <- Hp.
Qed.

(** X30: on an input without repeated elements [permutations] yields every
    rearrangement of the input. *)
Theorem permutations_yields_all iter σ0 (fuel : nat) :
  (swap_steps (length iter) < fuel)%nat → NoDup iter →
  ∃ ws σ,
    permutations_fuel fuel iter σ0 = Some (ws, σ) ∧
    ∀ p, p ≡ₚ iter → p ∈ seen <$> ws.
Proof.
  intros Hfuel Hnodup.
  destruct (permutations_run iter σ0 fuel Hfuel) as [Hrun _].
  eexists _, _. split; [exact Hrun|].
  rewrite seen_windows.
  destruct (levels_correct (length iter) iter ltac:(done))
    as (_ & _ & _ & Hout & Hcount & Hnd).
  set (out := (swap_level (length iter) iter).1) in *.
  assert (iter :: out ≡ₚ permutations iter) as Hall.
  { apply submseteq_length_Permutation.
    - apply NoDup_submseteq; [by apply Hnd|].
      intros x [->|Hx]%elem_of_cons; apply permutations_Permutation; [done|].
      symmetry. by destruct (Hout x Hx) as (_ & ? & _).
    - rewrite length_all_permutations. simpl. lia. }
  intros p Hp. rewrite Hall. apply permutations_Permutation. by symmetry.
Qed.
End PermutationsMore.

Lemma permutations_one_swap_apart_witness :
  ∃ ws σ out,
    permutations_fuel 20 [VNumber 1; VNumber 2; VNumber 3] [] = Some (ws, σ) ∧
    seen <$> ws = [VNumber 1; VNumber 2; VNumber 3] :: out ∧
    one_swap_apart [VNumber 1; VNumber 2; VNumber 3] out.
Proof.
  apply (permutations_one_swap_apart [VNumber 1; VNumber 2; VNumber 3] [] 20).
  vm_compute. lia.
Defined.

Lemma permutations_windows_read_last_witness :
  ∃ ws σ,
    permutations_fuel 20 [VNumber 1; VNumber 2; VNumber 3] [] = Some (ws, σ) ∧
    ∀ w, w ∈ ws →
         deref σ (backing w) =
         List.last (seen <$> ws) [VNumber 1; VNumber 2; VNumber 3].
Proof.
  apply (permutations_windows_read_last
           [VNumber 1; VNumber 2; VNumber 3] [] 20).
  vm_compute. lia.
Defined.

Lemma permutations_yields_all_witness :
  ∃ ws σ,
    permutations_fuel 20 [VNumber 1; VNumber 2; VNumber 3] [] = Some (ws, σ) ∧
    [VNumber 3; VNumber 1; VNumber 2] ∈ seen <$> ws.
Proof.
  destruct (permutations_yields_all [VNumber 1; VNumber 2; VNumber 3] [] 20)
    as (ws & σ & Hrun & Hall).
  - vm_compute. lia.
  - repeat (apply NoDup_cons; split;
      [intros Hin;
       repeat (apply elem_of_cons in Hin as [Hin|Hin]; [discriminate|]);
       by apply elem_of_nil in Hin|]).
    apply NoDup_nil_2.
  - exists ws, σ. split; [exact Hrun|]. apply Hall.
    apply (Permutation_app_comm [VNumber 3] [VNumber 1; VNumber 2]).
Defined.
